(** * neo4j_tools: query synthesis, chunking and chunked loading

    A shallow embedding of [neo4j_tools/gds_db_load.py] and
    [neo4j_tools/gds_utils.py].  Python integers are [Z], strings are
    [string], lists are [list]; a raising computation returns [Raise e]
    in the [result] type below; the loaders, which print and call the
    database, run in a small state-and-error monad over an explicit
    world. *)

From Stdlib Require Import List ZArith Lia Bool Ascii String.
From Stdlib Require Import Numbers.DecimalString.
From Stdlib Require Import Sorting.Sorted.
Import ListNotations.

Local Open Scope string_scope.
Local Open Scope list_scope.

(** ** Python values and exceptions *)

Module Py.

(** The exceptions the modelled code can raise: the bare [Exception] of
    [_make_map], the [IndexError] of a tuple subscript, the [ValueError]
    of [range] with a zero step, and whatever the database driver
    raises. *)
Inductive exn : Type :=
| Exception (msg : string)
| IndexError (msg : string)
| ValueError (msg : string)
| DriverError (msg : string).

Inductive result (A : Type) : Type :=
| Ok (a : A)
| Raise (e : exn).
Arguments Ok {A} a.
Arguments Raise {A} e.

Definition bind {A B : Type} (m : result A) (k : A -> result B) : result B :=
  match m with
  | Ok a => k a
  | Raise e => Raise e
  end.

Definition is_ok {A : Type} (m : result A) : bool :=
  match m with Ok _ => true | Raise _ => false end.

(** [range(start, stop, step)], with CPython's length computation. *)
Definition range_len (start stop step : Z) : Z :=
  if (0 <? step)%Z then
    if (start <? stop)%Z then ((stop - start - 1) / step + 1)%Z else 0%Z
  else
    if (stop <? start)%Z then ((start - stop - 1) / (- step) + 1)%Z else 0%Z.

Definition range (start stop step : Z) : result (list Z) :=
  if (step =? 0)%Z then Raise (ValueError "range() arg 3 must not be zero")
  else Ok (map (fun k => (start + Z.of_nat k * step)%Z)
               (seq 0 (Z.to_nat (range_len start stop step)))).

(** A slice bound, adjusted as [xs[i:j]] adjusts it: a negative bound
    counts from the end, and every bound is clamped to [0 .. len]. *)
Definition slice_index (len i : Z) : Z :=
  if (i <? 0)%Z then Z.max 0 (i + len) else Z.min i len.

Definition slice {A : Type} (xs : list A) (i j : Z) : list A :=
  let len := Z.of_nat (List.length xs) in
  let lo := slice_index len i in
  let hi := slice_index len j in
  firstn (Z.to_nat (hi - lo)) (skipn (Z.to_nat lo) xs).

(** [str(n)] for an integer. *)
Definition str_int (n : Z) : string := NilZero.string_of_int (Z.to_int n).

End Py.

Import Py.

Declare Scope py_scope.
Delimit Scope py_scope with py.
Notation "x <- m ;; k" := (Py.bind m (fun x => k))
  (at level 100, m at next level, right associativity) : py_scope.
Local Open Scope py_scope.

(** ** [chunks] *)

(** [[f(i) for i in ixs]] for a body that cannot raise. *)
Definition list_comp {A B : Type} (f : A -> B) (ixs : list A) : list B := map f ixs.

Definition chunks {A : Type} (xs : list A) (n : Z) : result (list (list A)) :=
  let n := Z.max 1 n in
  ixs <- range 0 (Z.of_nat (List.length xs)) n ;;
  Ok (list_comp (fun i => slice xs i (i + n)%Z) ixs).

(** The [k]-th run of [m] items of a list. *)
Definition chunk_at {A : Type} (m : nat) (xs : list A) (k : nat) : list A :=
  firstn m (skipn (k * m) xs).

(** The default of the [n] and [chunk_size] parameters. *)
Definition default_chunk_size : Z := 10000.

(** The last element of a list, when it has one. *)
Definition last_error {A : Type} (l : list A) : option A :=
  nth_error l (pred (List.length l)).

(** ** Query synthesis ([gds_db_load.py]) *)

Definition nl : string := String (ascii_of_nat 10) EmptyString.
Definition tab : string := String (ascii_of_nat 9) EmptyString.

(** What a caller can pass for a key or a label argument.  A tuple is a
    list of its items: [type(x) == tuple] does not fix its length.  Tuple
    and list items are strings, as the type hints have them. *)
Inductive pyval : Type :=
| PStr (s : string)
| PTuple (items : list string)
| PList (items : list string)
| PInt (z : Z)
| PNone.

Definition _make_map (x : pyval) : result (list string) :=
  match x with
  | PStr s => Ok [s; s]
  | PTuple items => Ok items
  | _ => Raise (Exception "Entry must of type string or tuple")
  end.

(** [t[i]] on a tuple. *)
Definition subscript (t : list string) (i : nat) : result string :=
  match nth_error t i with
  | Some v => Ok v
  | None => Raise (IndexError "tuple index out of range")
  end.

(** The loop of [_make_set_clause] appends one clause per property name. *)
Definition _make_set_clause (prop_names : list string)
    (element_name item_name : string) : string :=
  let clause_list :=
    fold_left
      (fun clause_list prop_name =>
         clause_list ++
         [(element_name ++ "." ++ prop_name ++ " = " ++
           item_name ++ "." ++ prop_name)%string])
      prop_names [] in
  ("SET " ++ String.concat ", " clause_list)%string.

Definition _make_node_merge_query (node_key_name node_label : string)
    (cols : list string) : string :=
  let template :=
    ("UNWIND $recs AS rec" ++ nl ++
     "MERGE(n:" ++ node_label ++ " {" ++ node_key_name ++ ": rec." ++
     node_key_name ++ "})")%string in
  let prop_names :=
    filter (fun x => negb (String.eqb x node_key_name)) cols in
  let template :=
    if (0 <? List.length prop_names)%nat
    then (template ++ nl ++ _make_set_clause prop_names "n" "rec")%string
    else template in
  (template ++ nl ++ "RETURN count(n) AS nodeLoadedCount")%string.

(** [x == y] where [y] may be [None]. *)
Definition opt_eqb (x y : option string) : bool :=
  match x, y with
  | Some a, Some b => String.eqb a b
  | None, None => true
  | _, _ => false
  end.

(** [x in ys] for a string [x] and a list whose items may be [None]. *)
Definition py_in (x : string) (ys : list (option string)) : bool :=
  existsb (opt_eqb (Some x)) ys.

Definition _make_rel_merge_query (source_target_labels source_node_key
    target_node_key : pyval) (rel_type : string) (cols : list string)
    (rel_key : option string) : result string :=
  source_target_label_map <- _make_map source_target_labels ;;
  source_node_key_map <- _make_map source_node_key ;;
  target_node_key_map <- _make_map target_node_key ;;
  let merge_statement :=
    match rel_key with
    | None => ("MERGE(s)-[r:" ++ rel_type ++ "]->(t)")%string
    | Some rel_key =>
        ("MERGE(s)-[r:" ++ rel_type ++ " {" ++ rel_key ++ ": rec." ++
         rel_key ++ "}]->(t)")%string
    end in
  l0 <- subscript source_target_label_map 0 ;;
  s0 <- subscript source_node_key_map 0 ;;
  s1 <- subscript source_node_key_map 1 ;;
  l1 <- subscript source_target_label_map 1 ;;
  t0 <- subscript target_node_key_map 0 ;;
  t1 <- subscript target_node_key_map 1 ;;
  let template :=
    (tab ++ "UNWIND $recs AS rec" ++ nl ++
     "    MATCH(s:" ++ l0 ++ " {" ++ s0 ++ ": rec." ++ s1 ++ "})" ++ nl ++
     "    MATCH(t:" ++ l1 ++ " {" ++ t0 ++ ": rec." ++ t1 ++ "})" ++ nl ++
     tab ++ merge_statement)%string in
  let prop_names :=
    filter (fun x => negb (py_in x [rel_key; Some s1; Some t1])) cols in
  let template :=
    if (0 <? List.length prop_names)%nat
    then (template ++ nl ++ tab ++ _make_set_clause prop_names "r" "rec")%string
    else template in
  Ok (template ++ nl ++ tab ++ "RETURN count(r) AS relLoadedCount")%string.

(** ** The clauses of a generated statement

    The specification speaks of the clauses a generated query holds.  A
    statement is read here as a list of indented clauses, one per line;
    [render] gives its text. *)

Inductive clause : Type :=
| Unwind
| MergeNode (label key : string)
| MatchNode (var label prop col : string)
| MergeRel (rel_type : string) (rel_key : option string)
| SetProps (element : string) (props : list string)
| ReturnCount (var alias : string).

(** One assignment of a [SET] clause: [element.prop = rec.prop]. *)
Definition assignment (element prop : string) : string :=
  (element ++ "." ++ prop ++ " = rec." ++ prop)%string.

Definition render_clause (c : clause) : string :=
  match c with
  | Unwind => "UNWIND $recs AS rec"
  | MergeNode label key =>
      "MERGE(n:" ++ label ++ " {" ++ key ++ ": rec." ++ key ++ "})"
  | MatchNode var label prop col =>
      "MATCH(" ++ var ++ ":" ++ label ++ " {" ++ prop ++ ": rec." ++ col ++ "})"
  | MergeRel rel_type None => "MERGE(s)-[r:" ++ rel_type ++ "]->(t)"
  | MergeRel rel_type (Some k) =>
      "MERGE(s)-[r:" ++ rel_type ++ " {" ++ k ++ ": rec." ++ k ++ "}]->(t)"
  | SetProps element props =>
      "SET " ++ String.concat ", " (map (assignment element) props)
  | ReturnCount var alias => "RETURN count(" ++ var ++ ") AS " ++ alias
  end%string.

(** A statement: its clauses, each with the indentation of its line. *)
Definition statement : Type := list (string * clause).

Definition render (st : statement) : string :=
  String.concat nl (map (fun ic => (fst ic ++ render_clause (snd ic))%string) st).

Definition is_merge_node (c : clause) : bool :=
  match c with MergeNode _ _ => true | _ => false end.

Definition is_match_node (c : clause) : bool :=
  match c with MatchNode _ _ _ _ => true | _ => false end.

Definition is_set (c : clause) : bool :=
  match c with SetProps _ _ => true | _ => false end.

Definition clauses_of (st : statement) : list clause := map snd st.

(** The non-key columns of a node load, in column order. *)
Definition node_props (key : string) (cols : list string) : list string :=
  filter (fun x => negb (String.eqb x key)) cols.

(** The clauses of the node-upsert statement. *)
Definition node_statement (key label : string) (cols : list string) : statement :=
  [(EmptyString, Unwind); (EmptyString, MergeNode label key)] ++
  match node_props key cols with
  | [] => []
  | p :: ps => [(EmptyString, SetProps "n" (p :: ps))]
  end ++
  [(EmptyString, ReturnCount "n" "nodeLoadedCount")].

(** The columns a relationship load assigns: every column but the source
    key column, the target key column and the disambiguation key. *)
Definition rel_props (src_col tgt_col : string) (rel_key : option string)
    (cols : list string) : list string :=
  filter (fun x => negb (String.eqb x src_col) && negb (String.eqb x tgt_col) &&
                   negb (opt_eqb (Some x) rel_key)) cols.

(** The clauses of the relationship-upsert statement. *)
Definition rel_statement (src_label tgt_label src_prop src_col tgt_prop
    tgt_col rel_type : string) (rel_key : option string)
    (cols : list string) : statement :=
  [(tab, Unwind);
   ("    ", MatchNode "s" src_label src_prop src_col);
   ("    ", MatchNode "t" tgt_label tgt_prop tgt_col);
   (tab, MergeRel rel_type rel_key)] ++
  match rel_props src_col tgt_col rel_key cols with
  | [] => []
  | p :: ps => [(tab, SetProps "r" (p :: ps))]
  end ++
  [(tab, ReturnCount "r" "relLoadedCount")].

(** A key or label argument of the shape the documentation asks for: a
    string, or a tuple of exactly two items. *)
Definition valid_mapping (x : pyval) : bool :=
  match x with
  | PStr _ => true
  | PTuple [_; _] => true
  | _ => false
  end.

(** The test [_make_map] makes: the argument is a string or a tuple. *)
Definition is_str_or_tuple (x : pyval) : bool :=
  match x with
  | PStr _ | PTuple _ => true
  | _ => false
  end.

(** The pair a valid argument stands for. *)
Definition mapping_of (x : pyval) : string * string :=
  match x with
  | PStr s => (s, s)
  | PTuple [a; b] => (a, b)
  | _ => (EmptyString, EmptyString)
  end.

(** ** Running against the database

    The [GraphDataScience] object is the execution capability:
    [run_cypher] takes the statement and its parameters, acts on the
    database (the world) and returns a data frame or raises.  A program
    threads the world, stops at the first exception, and emits the
    events an observer sees, in order: the lines it prints and the
    statements it submits. *)

(** The counts come back as [numpy.int64] cells, and adding one to the
    running total gives an [int64] again: a sum that leaves
    [-2^63 .. 2^63 - 1] wraps around. *)
Definition wrap64 (z : Z) : Z := ((z + 2 ^ 63) mod 2 ^ 64 - 2 ^ 63)%Z.

Definition int64_add (a b : Z) : Z := wrap64 (a + b).

(** A returned data frame: rows of [int64] cells, each written as the
    integer it holds. *)
Definition frame : Type := list (list Z).

(** [res.iloc[0, 0]]: the first cell of the first row; a frame without
    rows, or without columns, has none. *)
Definition iloc00 (res : frame) : result Z :=
  match res with
  | (c :: _) :: _ => Ok c
  | _ => Raise (IndexError "index 0 is out of bounds for axis 0 with size 0")
  end.

(** The lines the loaders print, by the [print] that writes them. *)
Inductive line : Type :=
| Banner (name what : string)
| Staging (total : nat)
| UsingQuery (query : string)
| Loaded (cumulative_count : Z) (total : nat) (what : string).

Section Execution.

Variable Rec : Type.
Variable World : Type.
Variable run_cypher :
  string -> option (list Rec) -> World -> result frame * World.

Inductive event : Type :=
| Printed (l : line)
| Submitted (query : string) (params : option (list Rec)).

Record outcome (A : Type) : Type := Outcome {
  returned : result A;
  world : World;
  trace : list event
}.
Arguments Outcome {A} _ _ _.
Arguments returned {A} _.
Arguments world {A} _.
Arguments trace {A} _.

Definition prog (A : Type) : Type := World -> outcome A.

Definition ret {A : Type} (a : A) : prog A := fun w => Outcome (Ok a) w [].

Definition lift {A : Type} (r : result A) : prog A := fun w => Outcome r w [].

Definition pbind {A B : Type} (m : prog A) (k : A -> prog B) : prog B :=
  fun w =>
    let o := m w in
    match returned o with
    | Ok a =>
        let o' := k a (world o) in
        Outcome (returned o') (world o') (trace o ++ trace o')
    | Raise e => Outcome (Raise e) (world o) (trace o)
    end.

Definition print (l : line) : prog unit := fun w => Outcome (Ok tt) w [Printed l].

Definition gds_run_cypher (query : string) (params : option (list Rec)) : prog frame :=
  fun w =>
    let (r, w') := run_cypher query params w in
    Outcome r w' [Submitted query params].

Notation "x <~ m ;; k" := (pbind m (fun x => k))
  (at level 100, m at next level, right associativity).

(** [for x in xs: s = body(s, x)], [s] being the variables the loop
    updates. *)
Fixpoint for_each {A S : Type} (xs : list A) (s : S) (body : S -> A -> prog S)
    : prog S :=
  match xs with
  | [] => ret s
  | x :: xs' => s' <~ body s x ;; for_each xs' s' body
  end.

(** A [pandas.DataFrame]: its columns and its rows as records. *)
Record DataFrame : Type := {
  columns : list string;
  to_dict_records : list Rec
}.

(** The body of the loading loop, the same in [load_nodes] and
    [load_rels] but for the last word of the line it prints. *)
Definition load_step (query : string) (total : nat) (what : string)
    (cumulative_count : Z) (recs : list Rec) : prog Z :=
  res <~ gds_run_cypher query (Some recs) ;;
  c <~ lift (iloc00 res) ;;
  let cumulative_count := int64_add cumulative_count c in
  _ <~ print (Loaded cumulative_count total what) ;;
  ret cumulative_count.

Definition load_nodes (node_df : DataFrame) (node_key_col node_label : string)
    (chunk_size : Z) : prog unit :=
  let records := to_dict_records node_df in
  _ <~ print (Banner node_label "nodes") ;;
  let total := List.length records in
  _ <~ print (Staging total) ;;
  let query := _make_node_merge_query node_key_col node_label (columns node_df) in
  _ <~ print (UsingQuery query) ;;
  let cumulative_count := 0%Z in
  cs <~ lift (chunks records chunk_size) ;;
  _ <~ for_each cs cumulative_count (load_step query total "nodes") ;;
  ret tt.

Definition load_rels (rel_df : DataFrame) (source_target_labels source_node_key
    target_node_key : pyval) (rel_type : string) (rel_key : option string)
    (chunk_size : Z) : prog unit :=
  let records := to_dict_records rel_df in
  _ <~ print (Banner rel_type "relationships") ;;
  let total := List.length records in
  _ <~ print (Staging total) ;;
  query <~ lift (_make_rel_merge_query source_target_labels source_node_key
                   target_node_key rel_type (columns rel_df) rel_key) ;;
  _ <~ print (UsingQuery query) ;;
  let cumulative_count := 0%Z in
  cs <~ lift (chunks records chunk_size) ;;
  _ <~ for_each cs cumulative_count (load_step query total "relationships") ;;
  ret tt.

(** ** Maintenance ([gds_utils.py]) *)

Definition delete_relationships (rel_type : string) (batch_size : Z)
    (src_node_label : option string) : prog unit :=
  let src_node_filter :=
    match src_node_label with
    | Some src_node_label => (":" ++ src_node_label)%string
    | None => EmptyString
    end in
  _ <~ gds_run_cypher
        (nl ++
         "        MATCH(" ++ src_node_filter ++ ")-[r:" ++ rel_type ++ "]->()" ++ nl ++
         "        CALL {" ++ nl ++
         "            WITH r" ++ nl ++
         "            DELETE r" ++ nl ++
         "        } IN TRANSACTIONS OF " ++ str_int batch_size ++ " ROWS" ++ nl ++
         "        ")%string None ;;
  ret tt.

Definition delete_nodes (node_label : string) (batch_size : Z) : prog unit :=
  _ <~ gds_run_cypher
        (nl ++
         "        MATCH(n:" ++ node_label ++ ")" ++ nl ++
         "        CALL {" ++ nl ++
         "            WITH n" ++ nl ++
         "            DETACH DELETE n" ++ nl ++
         "        } IN TRANSACTIONS OF " ++ str_int batch_size ++ " ROWS" ++ nl ++
         "        ")%string None ;;
  ret tt.

(** The default of the [batch_size] parameters. *)
Definition default_batch_size : Z := 1000.

(** *** What a run shows *)

(** The chunks a run submitted, in the order of submission. *)
Fixpoint submitted_chunks (t : list event) : list (list Rec) :=
  match t with
  | [] => []
  | Submitted _ (Some recs) :: t' => recs :: submitted_chunks t'
  | _ :: t' => submitted_chunks t'
  end.

(** The statements a run submitted. *)
Fixpoint submitted_queries (t : list event) : list string :=
  match t with
  | [] => []
  | Submitted q _ :: t' => q :: submitted_queries t'
  | _ :: t' => submitted_queries t'
  end.

(** The progress notifications of a run: [(cumulativeCount, total)]. *)
Fixpoint progress (t : list event) : list (Z * nat) :=
  match t with
  | [] => []
  | Printed (Loaded c total _) :: t' => (c, total) :: progress t'
  | _ :: t' => progress t'
  end.

(** The count a run reported last; the initial [cumulative_count] when it
    reported none. *)
Definition final_count (t : list event) : Z :=
  last (map fst (progress t)) 0%Z.

(** The executions of a statement over a list of chunks, one after the
    other from a given world: the counts of the chunks that succeeded,
    the first failure when there is one, and the world reached. *)
Fixpoint execute_all (query : string) (cs : list (list Rec)) (w : World)
    : list Z * option exn * World :=
  match cs with
  | [] => ([], None, w)
  | recs :: cs' =>
      let (r, w') := run_cypher query (Some recs) w in
      match bind r iloc00 with
      | Ok c =>
          let '(counts, failure, w'') := execute_all query cs' w' in
          (c :: counts, failure, w'')
      | Raise e => ([], Some e, w')
      end
  end.

(** How many chunks a run reaches: those that succeeded and the one that
    failed. *)
Definition reached (counts : list Z) (failure : option exn) : nat :=
  List.length counts + match failure with None => 0 | Some _ => 1 end.

(** The running totals of a list of counts, from a starting total, added
    up as the loop adds them. *)
Fixpoint running_totals (acc : Z) (counts : list Z) : list Z :=
  match counts with
  | [] => []
  | c :: counts' => int64_add acc c :: running_totals (int64_add acc c) counts'
  end.

(** The running sums of a list of counts as plain integers. *)
Fixpoint running_sums (acc : Z) (counts : list Z) : list Z :=
  match counts with
  | [] => []
  | c :: counts' => (acc + c)%Z :: running_sums (acc + c)%Z counts'
  end.

Definition sum_counts (counts : list Z) : Z := fold_right Z.add 0%Z counts.

(** The events of the loading loop when the first [k] chunks of [cs] are
    submitted and [totals] are the running totals reported: each chunk is
    followed by its report, but for a last chunk that failed. *)
Fixpoint loop_events (query : string) (total : nat) (what : string)
    (cs : list (list Rec)) (totals : list Z) : list event :=
  match cs with
  | [] => []
  | recs :: cs' =>
      Submitted query (Some recs) ::
      match totals with
      | [] => []
      | c :: totals' =>
          Printed (Loaded c total what) :: loop_events query total what cs' totals'
      end
  end.

End Execution.

Arguments Printed {Rec} l.
Arguments Submitted {Rec} query params.
Arguments Outcome {Rec World A} _ _ _.
Arguments returned {Rec World A} _.
Arguments world {Rec World A} _.
Arguments trace {Rec World A} _.
Arguments columns {Rec} _.
Arguments to_dict_records {Rec} _.
Arguments load_nodes {Rec World} run_cypher node_df node_key_col node_label chunk_size _.
Arguments load_rels {Rec World} run_cypher rel_df source_target_labels
  source_node_key target_node_key rel_type rel_key chunk_size _.
Arguments delete_relationships {Rec World} run_cypher rel_type batch_size src_node_label _.
Arguments delete_nodes {Rec World} run_cypher node_label batch_size _.
Arguments execute_all {Rec World} run_cypher query cs w.
Arguments ret {Rec World A} a _.
Arguments lift {Rec World A} r _.
Arguments pbind {Rec World A B} m k _.
Arguments print {Rec World} l _.
Arguments gds_run_cypher {Rec World} run_cypher query params _.
Arguments for_each {Rec World A S} xs s body _.
Arguments load_step {Rec World} run_cypher query total what cumulative_count recs _.
Arguments submitted_chunks {Rec} t.
Arguments submitted_queries {Rec} t.
Arguments progress {Rec} t.
Arguments final_count {Rec} t.
Arguments loop_events {Rec} query total what cs totals.

(** ** Stub execution capabilities *)

(** A stub that answers every statement with the fixed count [c]. *)
Definition const_executor {Rec : Type} (c : Z)
    : string -> option (list Rec) -> unit -> result frame * unit :=
  fun _ _ w => (Ok [[c]], w).

(** A stub that answers with the number of records it was given. *)
Definition len_executor {Rec : Type}
    : string -> option (list Rec) -> unit -> result frame * unit :=
  fun _ params w =>
    (Ok [[Z.of_nat (List.length (match params with Some recs => recs | None => [] end))]], w).

(** A stub over a call counter: the call numbered [bad] (from 0) raises,
    every other call answers with the number of its records. *)
Definition failing_executor {Rec : Type} (bad : nat)
    : string -> option (list Rec) -> nat -> result frame * nat :=
  fun _ params calls =>
    (if Nat.eqb calls bad then Raise (DriverError "connection lost")
     else Ok [[Z.of_nat (List.length (match params with Some recs => recs | None => [] end))]],
     S calls).

(** The batching clause of the maintenance deletes, as the templates
    indent it. *)
Definition in_transactions (var action : string) (batch_size : Z) : string :=
  ("        CALL {" ++ nl ++
   "            WITH " ++ var ++ nl ++
   "            " ++ action ++ nl ++
   "        } IN TRANSACTIONS OF " ++ str_int batch_size ++ " ROWS")%string.

(** ** Arguments the synthesizer can use

    [_make_rel_merge_query] reads items 0 and 1 of each normalized
    argument and nothing else. *)

(** A string, or a tuple of at least two items. *)
Definition usable_mapping (x : pyval) : bool :=
  match x with
  | PStr _ => true
  | PTuple (_ :: _ :: _) => true
  | _ => false
  end.

(** The two items read from a usable argument. *)
Definition first_two (x : pyval) : string * string :=
  match x with
  | PStr s => (s, s)
  | PTuple (a :: b :: _) => (a, b)
  | _ => (EmptyString, EmptyString)
  end.

(** ** The graph catalog ([clear_all_gds_graphs])

    The catalog calls of the [GraphDataScience] object are taken as
    they are used: [gds.graph.list().graphName.tolist()] gives the names,
    [gds.graph.get(name)] a graph object, and [g.drop()] drops it.  Each
    acts on the world and may raise. *)

Section Catalog.

Variable World : Type.
Variable Graph : Type.
Variable graph_list : World -> result (list string) * World.
Variable graph_get : string -> World -> result Graph * World.
Variable graph_drop : Graph -> World -> result unit * World.

(** The catalog calls a run makes. *)
Inductive catalog_call : Type :=
| ListGraphs
| GetGraph (g_name : string)
| DropGraph (g : Graph).

(** [for g_name in g_names: g = gds.graph.get(g_name); g.drop()] *)
Fixpoint drop_graphs (g_names : list string) (w : World)
    : result unit * World * list catalog_call :=
  match g_names with
  | [] => (Ok tt, w, [])
  | g_name :: g_names' =>
      let (r, w1) := graph_get g_name w in
      match r with
      | Raise e => (Raise e, w1, [GetGraph g_name])
      | Ok g =>
          let (r', w2) := graph_drop g w1 in
          match r' with
          | Raise e => (Raise e, w2, [GetGraph g_name; DropGraph g])
          | Ok _ =>
              let '(r'', w3, calls) := drop_graphs g_names' w2 in
              (r'', w3, GetGraph g_name :: DropGraph g :: calls)
          end
      end
  end.

Definition clear_all_gds_graphs (w : World)
    : result unit * World * list catalog_call :=
  let (r, w0) := graph_list w in
  match r with
  | Raise e => (Raise e, w0, [ListGraphs])
  | Ok g_names =>
      let '(r', w1, calls) := drop_graphs g_names w0 in
      (r', w1, ListGraphs :: calls)
  end.

(** The names a run asked for, and the graphs it dropped. *)
Fixpoint got_names (calls : list catalog_call) : list string :=
  match calls with
  | [] => []
  | GetGraph g_name :: calls' => g_name :: got_names calls'
  | _ :: calls' => got_names calls'
  end.

Fixpoint dropped_graphs (calls : list catalog_call) : list Graph :=
  match calls with
  | [] => []
  | DropGraph g :: calls' => g :: dropped_graphs calls'
  | _ :: calls' => dropped_graphs calls'
  end.

End Catalog.

Arguments ListGraphs {Graph}.
Arguments GetGraph {Graph} g_name.
Arguments DropGraph {Graph} g.
Arguments drop_graphs {World Graph} graph_get graph_drop g_names w.
Arguments clear_all_gds_graphs {World Graph} graph_list graph_get graph_drop w.
Arguments got_names {Graph} calls.
Arguments dropped_graphs {Graph} calls.

(** A catalog kept as the list of its graph names: a graph object is its
    name, asking for a name that is not there raises, and so does
    dropping one. *)
Definition list_catalog_list (w : list string) : result (list string) * list string :=
  (Ok w, w).

Definition list_catalog_get (g_name : string) (w : list string)
    : result string * list string :=
  (if existsb (String.eqb g_name) w then Ok g_name
   else Raise (ValueError "graph does not exist"), w).

Definition list_catalog_drop (g : string) (w : list string)
    : result unit * list string :=
  if existsb (String.eqb g) w
  then (Ok tt, filter (fun x => negb (String.eqb x g)) w)
  else (Raise (ValueError "graph does not exist"), w).

(** A stub that answers every statement with an empty data frame. *)
Definition empty_frame_executor {Rec : Type}
    : string -> option (list Rec) -> unit -> result frame * unit :=
  fun _ _ w => (Ok [], w).

(** * Properties *)

(** ** Chunking *)

Section ChunkFacts.

Context {A : Type}.

Lemma firstn_plus (a b : nat) (l : list A) :
  firstn (a + b) l = firstn a l ++ firstn b (skipn a l).
Proof.
  revert l; induction a as [|a IH]; intros l; simpl.
  - reflexivity.
  - destruct l as [|x l]; simpl.
    + now rewrite firstn_nil.
    + now rewrite IH.
Qed.

Lemma firstn_min_length (m : nat) (l : list A) :
  firstn (Nat.min m (List.length l)) l = firstn m l.
Proof.
  destruct (Nat.le_ge_cases m (List.length l)) as [H|H].
  - now rewrite Nat.min_l.
  - rewrite Nat.min_r by exact H.
    now rewrite !firstn_all2 by lia.
Qed.

Lemma concat_chunk_at (m : nat) (xs : list A) (c : nat) :
  List.concat (map (chunk_at m xs) (seq 0 c)) = firstn (c * m) xs.
Proof.
  induction c as [|c IH].
  - reflexivity.
  - rewrite seq_S, map_app, concat_app, IH; simpl.
    rewrite app_nil_r. unfold chunk_at.
    replace (m + c * m) with (c * m + m) by lia.
    now rewrite firstn_plus.
Qed.

Lemma length_chunk_at (m : nat) (xs : list A) (k : nat) :
  List.length (chunk_at m xs k) = Nat.min m (List.length xs - k * m).
Proof.
  unfold chunk_at. now rewrite length_firstn, length_skipn.
Qed.

(** A slice that starts inside the list is the chunk read off with
    [firstn] and [skipn]. *)
Lemma slice_chunk_at (xs : list A) (m k : nat) :
  (k * m <= List.length xs)%nat ->
  slice xs (Z.of_nat (k * m)) (Z.of_nat (k * m) + Z.of_nat m) = chunk_at m xs k.
Proof.
  intros Hk. unfold slice, slice_index, chunk_at.
  destruct (Z.ltb_spec (Z.of_nat (k * m)) 0) as [H|_]; [lia|].
  destruct (Z.ltb_spec (Z.of_nat (k * m) + Z.of_nat m) 0) as [H|_]; [lia|].
  rewrite (Z.min_l (Z.of_nat (k * m))) by lia.
  rewrite Nat2Z.id.
  rewrite <- (firstn_min_length m (skipn (k * m) xs)), length_skipn.
  f_equal. lia.
Qed.

End ChunkFacts.

(** The number of indices [range(0, len, n)] yields covers the list and
    overshoots it by less than one step. *)
Lemma range_len_bounds (len n : Z) :
  (1 <= n)%Z -> (0 <= len)%Z ->
  (0 <= range_len 0 len n /\
   (range_len 0 len n - 1) * n < len <= range_len 0 len n * n)%Z.
Proof.
  intros Hn Hlen. unfold range_len.
  destruct (Z.ltb_spec 0 n) as [_|H]; [|lia].
  destruct (Z.ltb_spec 0 len) as [Hpos|H]; [|lia].
  replace (len - 0 - 1)%Z with (len - 1)%Z by lia.
  pose proof (Z.div_pos (len - 1) n ltac:(lia) ltac:(lia)) as Hq.
  pose proof (Z.mul_div_le (len - 1) n ltac:(lia)) as Hlo.
  pose proof (Z.mul_succ_div_gt (len - 1) n ltac:(lia)) as Hhi.
  nia.
Qed.

(** [chunks] never raises, and its chunks are those read off with
    [firstn] and [skipn] at the multiples of the clamped size. *)
Lemma chunks_chunk_at {A : Type} (xs : list A) (n : Z) :
  let m := Z.to_nat (Z.max 1 n) in
  exists c : nat,
    chunks xs n = Ok (map (chunk_at m xs) (seq 0 c)) /\
    (List.length xs <= c * m < List.length xs + m)%nat.
Proof.
  intros m.
  assert (Hm : (1 <= m)%nat) by (unfold m; lia).
  assert (Hmz : Z.max 1 n = Z.of_nat m) by (unfold m; lia).
  destruct (range_len_bounds (Z.of_nat (List.length xs)) (Z.max 1 n))
    as (Hc0 & Hlo & Hhi); [lia | lia |].
  set (cz := range_len 0 (Z.of_nat (List.length xs)) (Z.max 1 n)) in *.
  exists (Z.to_nat cz).
  assert (Hcz : cz = Z.of_nat (Z.to_nat cz)) by lia.
  split.
  - unfold chunks, range.
    destruct (Z.eqb_spec (Z.max 1 n) 0) as [H|_]; [lia|].
    simpl. fold cz. unfold list_comp. rewrite map_map. f_equal.
    apply map_ext_in. intros k Hk. apply in_seq in Hk.
    rewrite Hmz.
    rewrite <- Nat2Z.inj_mul.
    apply slice_chunk_at.
    rewrite Hmz in Hlo. nia.
  - nia.
Qed.

Lemma nth_error_map_seq {B : Type} (f : nat -> B) (c k : nat) :
  (k < c)%nat -> nth_error (map f (seq 0 c)) k = Some (f k).
Proof.
  intros Hk. rewrite nth_error_map, nth_error_seq.
  destruct (Nat.ltb_spec k c); [reflexivity | lia].
Qed.

(** C10: the chunks of [chunks xs n], put end to end in order, are [xs]:
    no record is dropped, repeated or moved. *)
Theorem chunks_concat : forall (A : Type) (xs : list A) (n : Z),
  exists cs, chunks xs n = Ok cs /\ List.concat cs = xs.
Proof.
  intros A xs n.
  destruct (chunks_chunk_at xs n) as (c & Heq & Hcover & _).
  eexists; split; [exact Heq|].
  rewrite concat_chunk_at. now apply firstn_all2.
Qed.

(** C2: a chunk size of zero or less behaves as 1; for a positive size
    [chunks] returns (it does not raise), the chunk lengths add up to the
    length of the list, every chunk but the last holds exactly [n] items
    and the last holds between 1 and [n]; the empty list has no chunks. *)
Theorem chunks_spec : forall (A : Type) (xs : list A) (n : Z),
  ((n <= 0)%Z -> chunks xs n = chunks xs 1) /\
  ((0 < n)%Z ->
   exists cs, chunks xs n = Ok cs /\
     list_sum (map (@List.length A) cs) = List.length xs /\
     (forall k c, (S k < List.length cs)%nat -> nth_error cs k = Some c ->
                  Z.of_nat (List.length c) = n) /\
     (forall c, last_error cs = Some c ->
                (1 <= Z.of_nat (List.length c) <= n)%Z)) /\
  chunks (@nil A) n = Ok [].
Proof.
  intros A xs n. split; [|split].
  - intros Hn. unfold chunks.
    now replace (Z.max 1 n) with (Z.max 1 1) by lia.
  - intros Hn.
    destruct (chunks_chunk_at xs n) as (c & Heq & Hcover & Hover).
    set (m := Z.to_nat (Z.max 1 n)) in *.
    assert (Hm : Z.of_nat m = n) by (unfold m; lia).
    eexists; split; [exact Heq|].
    rewrite length_map, length_seq.
    split; [|split].
    + rewrite <- length_concat, concat_chunk_at.
      now rewrite firstn_all2.
    + intros k ch Hk Hnth.
      rewrite nth_error_map_seq in Hnth by lia.
      injection Hnth as <-.
      rewrite length_chunk_at, <- Hm.
      f_equal. apply Nat.min_l. nia.
    + intros ch Hlast. unfold last_error in Hlast.
      rewrite length_map, length_seq in Hlast.
      destruct c as [|c]; [discriminate Hlast|].
      simpl pred in Hlast.
      rewrite nth_error_map_seq in Hlast by lia.
      injection Hlast as <-.
      rewrite length_chunk_at, <- Hm. nia.
  - destruct (chunks_chunk_at (@nil A) n) as (c & Heq & Hcover & Hover).
    rewrite Heq. simpl in Hcover, Hover.
    destruct c as [|c]; [reflexivity | nia].
Qed.

(** ** Query synthesis *)

Lemma string_app_assoc (a b c : string) :
  ((a ++ b) ++ c = a ++ (b ++ c))%string.
Proof.
  induction a as [|ch a IH]; simpl; [reflexivity | now rewrite IH].
Qed.

(** Reassociate appends to the right and compute them on literals. *)
Ltac str_norm :=
  repeat first [rewrite string_app_assoc | progress cbn [append]].

Lemma fold_left_snoc {X Y : Type} (f : X -> Y) (l : list X) (acc : list Y) :
  fold_left (fun acc x => acc ++ [f x]) l acc = acc ++ map f l.
Proof.
  revert acc; induction l as [|x l IH]; intros acc; simpl.
  - now rewrite app_nil_r.
  - now rewrite IH, <- app_assoc.
Qed.

(** The loop of [_make_set_clause] builds the [SET] clause with one
    assignment per property name, in order. *)
Lemma set_clause_render (props : list string) (element : string) :
  _make_set_clause props element "rec" = render_clause (SetProps element props).
Proof.
  unfold _make_set_clause. rewrite fold_left_snoc. reflexivity.
Qed.

Lemma node_query_render (key label : string) (cols : list string) :
  _make_node_merge_query key label cols = render (node_statement key label cols).
Proof.
  unfold _make_node_merge_query, node_statement.
  change (filter (fun x => negb (x =? key)%string) cols) with (node_props key cols).
  rewrite set_clause_render.
  destruct (node_props key cols) as [|p ps]; cbn -[render_clause nl];
    rewrite ?string_app_assoc; reflexivity.
Qed.

Lemma node_props_In (key : string) (cols : list string) (p : string) :
  In p (node_props key cols) <-> In p cols /\ p <> key.
Proof.
  unfold node_props. rewrite filter_In.
  destruct (String.eqb_spec p key) as [->|Hne]; simpl; intuition congruence.
Qed.

(** C3: with at least one non-key column the node-upsert query holds one
    [SET] clause whose assignments are [n.prop = rec.prop], one per
    non-key column, joined by commas in column order; with none it holds
    no [SET] clause and is the [UNWIND], [MERGE] and [RETURN] lines. *)
Theorem node_query_set_clause : forall (key label : string) (cols : list string),
  let props := node_props key cols in
  let q := _make_node_merge_query key label cols in
  (forall p, In p props <-> In p cols /\ p <> key) /\
  q = render (node_statement key label cols) /\
  (props <> [] ->
     clauses_of (node_statement key label cols) =
       [Unwind; MergeNode label key; SetProps "n" props;
        ReturnCount "n" "nodeLoadedCount"] /\
     q = ("UNWIND $recs AS rec" ++ nl ++
          "MERGE(n:" ++ label ++ " {" ++ key ++ ": rec." ++ key ++ "})" ++ nl ++
          "SET " ++
          String.concat ", " (map (fun p => "n." ++ p ++ " = rec." ++ p) props) ++ nl ++
          "RETURN count(n) AS nodeLoadedCount")%string) /\
  (props = [] ->
     existsb is_set (clauses_of (node_statement key label cols)) = false /\
     q = ("UNWIND $recs AS rec" ++ nl ++
          "MERGE(n:" ++ label ++ " {" ++ key ++ ": rec." ++ key ++ "})" ++ nl ++
          "RETURN count(n) AS nodeLoadedCount")%string).
Proof.
  intros key label cols props q.
  split; [apply node_props_In|].
  split; [apply node_query_render|].
  unfold q. rewrite node_query_render. unfold node_statement. fold props.
  split.
  - intros Hne. destruct props as [|p ps]; [congruence|].
    split; [reflexivity|].
    remember (p :: ps) as l eqn:El. clear El.
    unfold render. cbn [app map fst snd render_clause String.concat].
    str_norm. reflexivity.
  - intros ->. split; [reflexivity|].
    unfold render. cbn [app map fst snd render_clause String.concat].
    str_norm. reflexivity.
Qed.

Lemma rel_props_filter (rel_key : option string) (s1 t1 : string) (cols : list string) :
  filter (fun x => negb (py_in x [rel_key; Some s1; Some t1])) cols =
  rel_props s1 t1 rel_key cols.
Proof.
  unfold rel_props, py_in. apply filter_ext. intros x.
  destruct rel_key as [k|]; simpl;
    [destruct (x =? k)%string|]; destruct (x =? s1)%string, (x =? t1)%string;
    reflexivity.
Qed.

Lemma rel_props_In (sc tc : string) (rel_key : option string)
    (cols : list string) (p : string) :
  In p (rel_props sc tc rel_key cols) <->
  In p cols /\ p <> sc /\ p <> tc /\ Some p <> rel_key.
Proof.
  unfold rel_props. rewrite filter_In.
  destruct (String.eqb_spec p sc) as [->|Hs]; simpl; [intuition congruence|].
  destruct (String.eqb_spec p tc) as [->|Ht]; simpl; [intuition congruence|].
  destruct rel_key as [k|]; simpl.
  - destruct (String.eqb_spec p k) as [->|Hk]; simpl; intuition congruence.
  - intuition congruence.
Qed.

Lemma valid_mapping_make_map (x : pyval) :
  valid_mapping x = true ->
  _make_map x = Ok [fst (mapping_of x); snd (mapping_of x)].
Proof.
  destruct x as [s|[|a [|b [|c items]]]|items|z|]; simpl;
    intros H; try discriminate H; reflexivity.
Qed.

(** On arguments of the documented shapes the relationship-upsert query is
    the text of [rel_statement]. *)
Lemma rel_query_render (labels skey tkey : pyval) (rel_type : string)
    (cols : list string) (rel_key : option string) :
  valid_mapping labels = true ->
  valid_mapping skey = true ->
  valid_mapping tkey = true ->
  _make_rel_merge_query labels skey tkey rel_type cols rel_key =
  Ok (render (rel_statement
                (fst (mapping_of labels)) (snd (mapping_of labels))
                (fst (mapping_of skey)) (snd (mapping_of skey))
                (fst (mapping_of tkey)) (snd (mapping_of tkey))
                rel_type rel_key cols)).
Proof.
  intros Hl Hs Ht. unfold _make_rel_merge_query.
  rewrite (valid_mapping_make_map _ Hl), (valid_mapping_make_map _ Hs),
    (valid_mapping_make_map _ Ht).
  cbn [bind subscript nth_error].
  rewrite rel_props_filter, set_clause_render.
  unfold rel_statement. f_equal.
  destruct (rel_props _ _ rel_key cols) as [|p ps].
  - unfold render. cbn [app map fst snd List.length Nat.ltb Nat.leb String.concat].
    destruct rel_key as [k|]; cbn [render_clause]; str_norm; reflexivity.
  - remember (p :: ps) as l eqn:El.
    replace (0 <? List.length l)%nat with true by (subst l; reflexivity).
    clear El.
    unfold render. cbn [app map fst snd String.concat].
    destruct rel_key as [k|]; cbn [render_clause]; str_norm; reflexivity.
Qed.

(** C4: on a valid relationship load specification the generated query
    finds both endpoints with a [MATCH] on label and key property, holds
    no [MERGE] of a node, and its [SET] clause assigns the columns other
    than the source key column, the target key column and the
    disambiguation key. *)
Theorem rel_query_endpoints :
  forall (labels skey tkey : pyval) (rel_type : string) (cols : list string)
         (rel_key : option string),
  valid_mapping labels = true ->
  valid_mapping skey = true ->
  valid_mapping tkey = true ->
  let sl := fst (mapping_of labels) in
  let tl := snd (mapping_of labels) in
  let sp := fst (mapping_of skey) in
  let sc := snd (mapping_of skey) in
  let tp := fst (mapping_of tkey) in
  let tc := snd (mapping_of tkey) in
  let st := rel_statement sl tl sp sc tp tc rel_type rel_key cols in
  let props := rel_props sc tc rel_key cols in
  _make_rel_merge_query labels skey tkey rel_type cols rel_key = Ok (render st) /\
  filter is_match_node (clauses_of st) =
    [MatchNode "s" sl sp sc; MatchNode "t" tl tp tc] /\
  render_clause (MatchNode "s" sl sp sc) =
    ("MATCH(s:" ++ sl ++ " {" ++ sp ++ ": rec." ++ sc ++ "})")%string /\
  render_clause (MatchNode "t" tl tp tc) =
    ("MATCH(t:" ++ tl ++ " {" ++ tp ++ ": rec." ++ tc ++ "})")%string /\
  existsb is_merge_node (clauses_of st) = false /\
  filter is_set (clauses_of st) =
    match props with [] => [] | _ :: _ => [SetProps "r" props] end /\
  (forall p, In p props <-> In p cols /\ p <> sc /\ p <> tc /\ Some p <> rel_key).
Proof.
  intros labels skey tkey rel_type cols rel_key Hl Hs Ht sl tl sp sc tp tc st props.
  split; [now apply rel_query_render|].
  unfold st, rel_statement. fold props.
  split; [destruct props; reflexivity|].
  split; [reflexivity|]. split; [reflexivity|].
  split; [destruct props; reflexivity|].
  split; [destruct props; reflexivity|].
  intros p. apply rel_props_In.
Qed.

Lemma rel_query_endpoints_witness :
  _make_rel_merge_query (PStr "Person") (PStr "src") (PTuple ["id"; "dst"])
    "KNOWS" ["src"; "dst"; "since"; "weight"] (Some "since") =
  Ok (render (rel_statement "Person" "Person" "src" "src" "id" "dst" "KNOWS"
                (Some "since") ["src"; "dst"; "since"; "weight"])).
Proof.
  apply (rel_query_endpoints (PStr "Person") (PStr "src") (PTuple ["id"; "dst"])
           "KNOWS" ["src"; "dst"; "since"; "weight"] (Some "since"));
    reflexivity.
Defined.

(** C5: a key given as the name [k] and as the pair [(k, k)] (so ["id"]
    and [("id", "id")]) give the same query, character for character, in
    either key position; the pair [("personId", "id")] gives a [MATCH] of
    the [personId] property against [rec.id]. *)
Theorem rel_key_normalization :
  forall (labels other : pyval) (rel_type : string) (cols : list string)
         (rel_key : option string) (k : string),
  _make_rel_merge_query labels (PStr k) other rel_type cols rel_key =
  _make_rel_merge_query labels (PTuple [k; k]) other rel_type cols rel_key /\
  _make_rel_merge_query labels other (PStr k) rel_type cols rel_key =
  _make_rel_merge_query labels other (PTuple [k; k]) rel_type cols rel_key /\
  _make_rel_merge_query labels (PStr k) (PStr k) rel_type cols rel_key =
  _make_rel_merge_query labels (PTuple [k; k]) (PTuple [k; k]) rel_type cols rel_key /\
  (valid_mapping labels = true -> valid_mapping other = true ->
   let sl := fst (mapping_of labels) in
   let st := rel_statement sl (snd (mapping_of labels)) "personId" "id"
               (fst (mapping_of other)) (snd (mapping_of other))
               rel_type rel_key cols in
   _make_rel_merge_query labels (PTuple ["personId"; "id"]) other rel_type cols
     rel_key = Ok (render st) /\
   nth_error st 1 = Some ("    ", MatchNode "s" sl "personId" "id") /\
   render_clause (MatchNode "s" sl "personId" "id") =
     ("MATCH(s:" ++ sl ++ " {personId: rec.id})")%string).
Proof.
  intros labels other rel_type cols rel_key k.
  split; [reflexivity|]. split; [|split].
  - unfold _make_rel_merge_query.
    destruct (_make_map labels); [|reflexivity].
    destruct (_make_map other); reflexivity.
  - reflexivity.
  - intros Hl Ho sl st. split; [|split].
    + now apply (rel_query_render labels (PTuple ["personId"; "id"]) other).
    + reflexivity.
    + cbn [render_clause]. str_norm. reflexivity.
Qed.

(** C8: the [MERGE] clause of the relationship-upsert query carries the
    filter [{key: rec.key}] on the relationship when a disambiguation key
    is given, and none when it is not: [rel_key = "since"] with type
    [KNOWS] gives [{since: rec.since}], no key gives
    [MERGE(s)-[r:KNOWS]->(t)]. *)
Theorem rel_merge_clause :
  forall (labels skey tkey : pyval) (rel_type : string) (cols : list string)
         (rel_key : option string),
  valid_mapping labels = true ->
  valid_mapping skey = true ->
  valid_mapping tkey = true ->
  let st := rel_statement (fst (mapping_of labels)) (snd (mapping_of labels))
              (fst (mapping_of skey)) (snd (mapping_of skey))
              (fst (mapping_of tkey)) (snd (mapping_of tkey))
              rel_type rel_key cols in
  _make_rel_merge_query labels skey tkey rel_type cols rel_key = Ok (render st) /\
  render st =
    (render (firstn 3 st) ++ nl ++ tab ++
     match rel_key with
     | Some k => "MERGE(s)-[r:" ++ rel_type ++ " {" ++ k ++ ": rec." ++ k ++ "}]->(t)"
     | None => "MERGE(s)-[r:" ++ rel_type ++ "]->(t)"
     end ++ nl ++ render (skipn 4 st))%string /\
  nth_error st 3 = Some (tab, MergeRel rel_type rel_key) /\
  filter (fun c => match c with MergeRel _ _ => true | _ => false end)
    (clauses_of st) = [MergeRel rel_type rel_key].
Proof.
  intros labels skey tkey rel_type cols rel_key Hl Hs Ht st.
  split; [now apply rel_query_render|].
  unfold st, rel_statement.
  destruct (rel_props _ _ rel_key cols) as [|p ps]; (split; [|split; reflexivity]).
  - unfold render. cbn [app map fst snd firstn skipn String.concat].
    destruct rel_key as [k|]; cbn [render_clause]; str_norm; reflexivity.
  - remember (p :: ps) as l eqn:El. clear El.
    unfold render. cbn [app map fst snd firstn skipn String.concat].
    destruct rel_key as [k|]; cbn [render_clause]; str_norm; reflexivity.
Qed.

Lemma rel_merge_clause_witness :
  (exists pre post,
     _make_rel_merge_query (PStr "Person") (PStr "id") (PStr "friend") "KNOWS"
       ["id"; "friend"; "since"] (Some "since") =
     Ok (pre ++ "MERGE(s)-[r:KNOWS {since: rec.since}]->(t)" ++ post)%string) /\
  (exists pre post,
     _make_rel_merge_query (PStr "Person") (PStr "id") (PStr "friend") "KNOWS"
       ["id"; "friend"; "since"] None =
     Ok (pre ++ "MERGE(s)-[r:KNOWS]->(t)" ++ post)%string).
Proof.
  split.
  - destruct (rel_merge_clause (PStr "Person") (PStr "id") (PStr "friend") "KNOWS"
                ["id"; "friend"; "since"] (Some "since")
                eq_refl eq_refl eq_refl) as (Hq & Htext & _).
    rewrite Hq, Htext.
    match goal with
    | |- exists pre post, Ok (?a ++ nl ++ tab ++ ?m ++ ?r)%string = _ =>
        exists (a ++ nl ++ tab)%string, r
    end.
    reflexivity.
  - destruct (rel_merge_clause (PStr "Person") (PStr "id") (PStr "friend") "KNOWS"
                ["id"; "friend"; "since"] None
                eq_refl eq_refl eq_refl) as (Hq & Htext & _).
    rewrite Hq, Htext.
    match goal with
    | |- exists pre post, Ok (?a ++ nl ++ tab ++ ?m ++ ?r)%string = _ =>
        exists (a ++ nl ++ tab)%string, r
    end.
    reflexivity.
Defined.

(** ** The chunked loader *)

Lemma last_nonempty_default {X : Type} (x : X) (l : list X) (d d' : X) :
  last (x :: l) d = last (x :: l) d'.
Proof.
  revert x; induction l as [|y l IH]; intros x; [reflexivity|].
  change (last (y :: l) d = last (y :: l) d'). apply IH.
Qed.

Section LoaderFacts.

Context {Rec World : Type}.
Variable run_cypher :
  string -> option (list Rec) -> World -> result frame * World.

Lemma execute_all_reached (query : string) (cs : list (list Rec)) (w : World) :
  let '(counts, failure, _) := execute_all run_cypher query cs w in
  (reached counts failure <= List.length cs)%nat /\
  (failure = None -> reached counts failure = List.length cs).
Proof.
  revert w; induction cs as [|recs cs IH]; intros w; simpl.
  - split; [apply Nat.le_refl | reflexivity].
  - destruct (run_cypher query (Some recs) w) as [r w1].
    destruct (bind r iloc00) as [c|e].
    + specialize (IH w1).
      destruct (execute_all run_cypher query cs w1) as [[counts failure] w2].
      unfold reached in *. simpl. destruct IH as [IH1 IH2].
      split; [lia | intros H; specialize (IH2 H); lia].
    + unfold reached. simpl. split; [lia | discriminate].
Qed.

(** One turn of the loading loop: the chunk is submitted; when its count
    comes back the new total is printed, and when it does not the
    exception goes up with nothing printed. *)
Lemma load_step_run (query : string) (total : nat) (what : string) (acc : Z)
    (recs : list Rec) (w : World) :
  load_step run_cypher query total what acc recs w =
  let (r, w1) := run_cypher query (Some recs) w in
  match bind r iloc00 with
  | Ok c =>
      Outcome (Ok (int64_add acc c)) w1
        [Submitted query (Some recs);
         Printed (Loaded (int64_add acc c) total what)]
  | Raise e => Outcome (Raise e) w1 [Submitted query (Some recs)]
  end.
Proof.
  unfold load_step, pbind, gds_run_cypher, lift, print, ret.
  destruct (run_cypher query (Some recs) w) as [[res|e] w1]; simpl;
    [destruct (iloc00 res) as [c|e]; reflexivity | reflexivity].
Qed.

(** The loading loop from a running total [acc]: what it returns, the
    world it leaves and the events it emits. *)
Lemma load_loop_run (query : string) (total : nat) (what : string)
    (cs : list (list Rec)) :
  forall (acc : Z) (w : World),
  let '(counts, failure, w') := execute_all run_cypher query cs w in
  for_each cs acc (load_step run_cypher query total what) w =
  Outcome
    (match failure with
     | None => Ok (fold_left int64_add counts acc)
     | Some e => Raise e
     end)
    w'
    (loop_events query total what (firstn (reached counts failure) cs)
       (running_totals acc counts)).
Proof.
  induction cs as [|recs cs IH]; intros acc w.
  - reflexivity.
  - cbn [execute_all for_each]. unfold pbind. rewrite load_step_run.
    destruct (run_cypher query (Some recs) w) as [r w1].
    destruct (bind r iloc00) as [c|e]; cbn [returned world trace].
    + specialize (IH (int64_add acc c) w1).
      destruct (execute_all run_cypher query cs w1) as [[counts failure] w2].
      rewrite IH. cbn [returned world trace]. unfold reached.
      cbn [List.length Nat.add firstn running_totals loop_events app fold_left].
      reflexivity.
    + reflexivity.
Qed.

Lemma last_running_sums_gen (counts : list Z) :
  forall acc d : Z,
  last (running_sums acc counts) d =
  match counts with [] => d | _ :: _ => (acc + sum_counts counts)%Z end.
Proof.
  induction counts as [|c counts IH]; intros acc d.
  - reflexivity.
  - cbn [running_sums]. specialize (IH (acc + c)%Z (acc + c)%Z).
    destruct counts as [|c' counts].
    + unfold sum_counts. simpl. lia.
    + change (last ((acc + c)%Z :: running_sums (acc + c) (c' :: counts)) d)
        with (last (running_sums (acc + c) (c' :: counts)) d).
      cbn [running_sums] in *.
      rewrite (last_nonempty_default _ _ d (acc + c)%Z).
      rewrite IH. unfold sum_counts. simpl. lia.
Qed.

Lemma last_running_sums (counts : list Z) (acc : Z) :
  last (running_sums acc counts) acc = (acc + sum_counts counts)%Z.
Proof.
  rewrite last_running_sums_gen.
  destruct counts; [unfold sum_counts; simpl; lia | reflexivity].
Qed.

(** Wrapping is taking the representative of a class modulo [2^64]. *)
Lemma wrap64_add_l (a b : Z) : wrap64 (wrap64 a + b) = wrap64 (a + b).
Proof.
  unfold wrap64.
  replace ((a + 2 ^ 63) mod 2 ^ 64 - 2 ^ 63 + b + 2 ^ 63)%Z
    with ((a + 2 ^ 63) mod 2 ^ 64 + b)%Z by ring.
  rewrite Z.add_mod_idemp_l by (compute; discriminate).
  do 2 f_equal. ring.
Qed.

Lemma wrap64_idem (a : Z) : wrap64 (wrap64 a) = wrap64 a.
Proof.
  pose proof (wrap64_add_l a 0) as H. now rewrite !Z.add_0_r in H.
Qed.

Lemma wrap64_in_range (z : Z) :
  (- 2 ^ 63 <= z < 2 ^ 63)%Z -> wrap64 z = z.
Proof.
  intros Hz. unfold wrap64. rewrite Z.mod_small; lia.
Qed.

Lemma wrap64_range (z : Z) : (- 2 ^ 63 <= wrap64 z < 2 ^ 63)%Z.
Proof.
  unfold wrap64.
  pose proof (Z.mod_pos_bound (z + 2 ^ 63) (2 ^ 64) ltac:(lia)). lia.
Qed.

(** The totals the loop reports are the plain running sums, each
    wrapped. *)
Lemma running_totals_wrap (counts : list Z) :
  forall acc acc' : Z,
  wrap64 acc' = wrap64 acc ->
  running_totals acc' counts = map wrap64 (running_sums acc counts).
Proof.
  induction counts as [|c counts IH]; intros acc acc' Hacc; [reflexivity|].
  cbn [running_totals running_sums map]. unfold int64_add.
  assert (Hc : wrap64 (acc' + c) = wrap64 (acc + c))
    by (rewrite <- (wrap64_add_l acc'), Hacc; apply wrap64_add_l).
  rewrite Hc. f_equal. apply IH. apply wrap64_idem.
Qed.

Lemma last_map {X Y : Type} (f : X -> Y) (l : list X) (d : X) :
  last (map f l) (f d) = f (last l d).
Proof.
  induction l as [|x l IH]; [reflexivity|].
  destruct l as [|y l]; [reflexivity|].
  change (last (map f (y :: l)) (f d) = f (last (y :: l) d)). exact IH.
Qed.

Lemma last_running_totals (counts : list Z) :
  last (running_totals 0 counts) 0%Z = wrap64 (sum_counts counts).
Proof.
  rewrite (running_totals_wrap counts 0 0 eq_refl).
  change (last (map wrap64 (running_sums 0 counts)) (wrap64 0) =
          wrap64 (sum_counts counts)).
  rewrite last_map, last_running_sums. reflexivity.
Qed.

Lemma loop_events_submitted (query : string) (total : nat) (what : string)
    (cs : list (list Rec)) :
  forall totals : list Z,
  (List.length cs <= S (List.length totals))%nat ->
  submitted_chunks (loop_events query total what cs totals) = cs /\
  submitted_queries (loop_events query total what cs totals) =
    repeat query (List.length cs).
Proof.
  induction cs as [|recs cs IH]; intros totals Hlen; simpl.
  - split; reflexivity.
  - destruct totals as [|c totals]; simpl in *.
    + destruct cs; [split; reflexivity | simpl in Hlen; lia].
    + destruct (IH totals ltac:(lia)) as [-> ->]. split; reflexivity.
Qed.

Lemma loop_events_progress (query : string) (total : nat) (what : string)
    (cs : list (list Rec)) :
  forall totals : list Z,
  (List.length totals <= List.length cs)%nat ->
  progress (loop_events query total what cs totals) =
  map (fun c => (c, total)) totals.
Proof.
  induction cs as [|recs cs IH]; intros totals Hlen; simpl.
  - destruct totals; [reflexivity | simpl in Hlen; lia].
  - destruct totals as [|c totals]; simpl in *; [reflexivity|].
    now rewrite IH by lia.
Qed.

Lemma length_running_totals (counts : list Z) :
  forall acc : Z, List.length (running_totals acc counts) = List.length counts.
Proof.
  induction counts as [|c counts IH]; intros acc; simpl; [|rewrite IH]; reflexivity.
Qed.

Lemma load_nodes_run (node_df : DataFrame Rec) (key label : string)
    (chunk_size : Z) (w : World) (cs : list (list Rec)) :
  chunks (to_dict_records node_df) chunk_size = Ok cs ->
  let total := List.length (to_dict_records node_df) in
  let query := _make_node_merge_query key label (columns node_df) in
  let '(counts, failure, w') := execute_all run_cypher query cs w in
  load_nodes run_cypher node_df key label chunk_size w =
  Outcome
    (match failure with None => Ok tt | Some e => Raise e end)
    w'
    ([Printed (Banner label "nodes"); Printed (Staging total);
      Printed (UsingQuery query)] ++
     loop_events query total "nodes" (firstn (reached counts failure) cs)
       (running_totals 0 counts)).
Proof.
  intros Hcs total query.
  pose proof (load_loop_run query total "nodes" cs 0%Z w) as Hloop.
  destruct (execute_all run_cypher query cs w) as [[counts failure] w'].
  unfold load_nodes, pbind, print, lift. cbn [returned world trace].
  rewrite Hcs. cbn [returned world trace].
  fold total. fold query. rewrite Hloop. cbn [returned world trace app].
  destruct failure; unfold ret; cbn [returned world trace];
    rewrite ?app_nil_r; reflexivity.
Qed.

Lemma load_rels_run (rel_df : DataFrame Rec) (labels skey tkey : pyval)
    (rel_type : string) (rel_key : option string) (chunk_size : Z) (w : World)
    (cs : list (list Rec)) (query : string) :
  chunks (to_dict_records rel_df) chunk_size = Ok cs ->
  _make_rel_merge_query labels skey tkey rel_type (columns rel_df) rel_key =
    Ok query ->
  let total := List.length (to_dict_records rel_df) in
  let '(counts, failure, w') := execute_all run_cypher query cs w in
  load_rels run_cypher rel_df labels skey tkey rel_type rel_key chunk_size w =
  Outcome
    (match failure with None => Ok tt | Some e => Raise e end)
    w'
    ([Printed (Banner rel_type "relationships"); Printed (Staging total);
      Printed (UsingQuery query)] ++
     loop_events query total "relationships"
       (firstn (reached counts failure) cs) (running_totals 0 counts)).
Proof.
  intros Hcs Hq total.
  pose proof (load_loop_run query total "relationships" cs 0%Z w) as Hloop.
  destruct (execute_all run_cypher query cs w) as [[counts failure] w'].
  unfold load_rels, pbind, print, lift. cbn [returned world trace].
  rewrite Hq. cbn [returned world trace].
  rewrite Hcs. cbn [returned world trace].
  fold total. rewrite Hloop. cbn [returned world trace app].
  destruct failure; unfold ret; cbn [returned world trace];
    rewrite ?app_nil_r; reflexivity.
Qed.

(** When synthesis raises, [load_rels] stops after its first two lines:
    nothing is submitted and the world is untouched. *)
Lemma load_rels_synthesis_error (rel_df : DataFrame Rec)
    (labels skey tkey : pyval) (rel_type : string) (rel_key : option string)
    (chunk_size : Z) (w : World) (e : exn) :
  _make_rel_merge_query labels skey tkey rel_type (columns rel_df) rel_key =
    Raise e ->
  load_rels run_cypher rel_df labels skey tkey rel_type rel_key chunk_size w =
  Outcome (Raise e) w
    [Printed (Banner rel_type "relationships");
     Printed (Staging (List.length (to_dict_records rel_df)))].
Proof.
  intros Hq. unfold load_rels, pbind, print, lift. cbn [returned world trace].
  rewrite Hq. reflexivity.
Qed.

(** What the events of a run show, read off its loop. *)
Lemma header_loop_projections (header : list (event Rec)) (query : string)
    (total : nat) (what : string) (cs : list (list Rec)) (counts : list Z)
    (failure : option exn) :
  (reached counts failure <= List.length cs)%nat ->
  submitted_chunks header = [] ->
  submitted_queries header = [] ->
  progress header = [] ->
  let t := header ++
           loop_events query total what (firstn (reached counts failure) cs)
             (running_totals 0 counts) in
  submitted_chunks t = firstn (reached counts failure) cs /\
  submitted_queries t = repeat query (reached counts failure) /\
  progress t = map (fun c => (c, total)) (running_totals 0 counts) /\
  final_count t = wrap64 (sum_counts counts).
Proof.
  intros Hk Hsc Hsq Hpr t.
  assert (Hlen : List.length (firstn (reached counts failure) cs) =
                 reached counts failure) by (rewrite length_firstn; lia).
  assert (Happ_sc : forall a b : list (event Rec),
             submitted_chunks (a ++ b) = submitted_chunks a ++ submitted_chunks b).
  { induction a as [|[l|q [recs|]] a IH]; intros b; simpl; rewrite ?IH; reflexivity. }
  assert (Happ_sq : forall a b : list (event Rec),
             submitted_queries (a ++ b) = submitted_queries a ++ submitted_queries b).
  { induction a as [|[l|q params] a IH]; intros b; simpl; rewrite ?IH; reflexivity. }
  assert (Happ_pr : forall a b : list (event Rec),
             progress (a ++ b) = progress a ++ progress b).
  { induction a as [|[[| | |c n s]|q params] a IH]; intros b; simpl;
      rewrite ?IH; reflexivity. }
  destruct (loop_events_submitted query total what
              (firstn (reached counts failure) cs) (running_totals 0 counts))
    as [Hs1 Hs2].
  { rewrite Hlen, length_running_totals. unfold reached. destruct failure; lia. }
  assert (Hp : progress t = map (fun c => (c, total)) (running_totals 0 counts)).
  { unfold t. rewrite Happ_pr, Hpr. simpl.
    apply loop_events_progress.
    rewrite Hlen, length_running_totals. unfold reached. lia. }
  unfold t. rewrite Happ_sc, Happ_sq, Hsc, Hsq, Hs1, Hs2, Hlen.
  split; [reflexivity|]. split; [reflexivity|]. split; [exact Hp|].
  unfold final_count. fold t. rewrite Hp, map_map. simpl. rewrite map_id.
  apply last_running_totals.
Qed.

End LoaderFacts.

(** C7, as amended: [load_nodes] submits the chunks, which make up the
    records, one after the other in input order, each once, and prints
    the running total after each, added up as 64-bit integers: it is the
    sum of the counts so far, wrapped into [-2^63 .. 2^63 - 1]; when a
    chunk fails the exception goes up to the caller, the chunk is not
    submitted again, no later chunk is submitted, and what the earlier
    chunks did to the database stays. *)
Theorem load_nodes_sequential :
  forall (Rec World : Type)
         (run_cypher : string -> option (list Rec) -> World -> result frame * World)
         (node_df : DataFrame Rec) (key label : string) (chunk_size : Z)
         (w : World),
  let total := List.length (to_dict_records node_df) in
  let query := _make_node_merge_query key label (columns node_df) in
  let run := load_nodes run_cypher node_df key label chunk_size w in
  exists cs,
    chunks (to_dict_records node_df) chunk_size = Ok cs /\
    List.concat cs = to_dict_records node_df /\
    let '(counts, failure, w') := execute_all run_cypher query cs w in
    let k := reached counts failure in
    (k <= List.length cs)%nat /\
    (failure = None -> k = List.length cs) /\
    submitted_chunks (trace run) = firstn k cs /\
    submitted_queries (trace run) = repeat query k /\
    progress (trace run) = map (fun c => (c, total)) (running_totals 0 counts) /\
    running_totals 0 counts = map wrap64 (running_sums 0 counts) /\
    (forall z : Z, (- 2 ^ 63 <= z < 2 ^ 63)%Z -> wrap64 z = z) /\
    trace run =
      [Printed (Banner label "nodes"); Printed (Staging total);
       Printed (UsingQuery query)] ++
      loop_events query total "nodes" (firstn k cs) (running_totals 0 counts) /\
    returned run = match failure with None => Ok tt | Some e => Raise e end /\
    world run = w'.
Proof.
  intros Rec World run_cypher node_df key label chunk_size w total query run.
  destruct (chunks_chunk_at (to_dict_records node_df) chunk_size)
    as (c & Hcs & Hcover & _).
  match type of Hcs with _ = Ok ?l => set (cs := l) in * end.
  exists cs; split; [exact Hcs|].
  split; [unfold cs; rewrite concat_chunk_at; now apply firstn_all2|].
  pose proof (load_nodes_run run_cypher node_df key label chunk_size w cs Hcs) as Hrun.
  pose proof (execute_all_reached run_cypher query cs w) as Hk.
  cbv zeta in Hrun. fold query total in Hrun. fold run in Hrun.
  destruct (execute_all run_cypher query cs w) as [[counts failure] w'].
  destruct Hk as [Hle Hall].
  destruct (header_loop_projections
              [Printed (Banner label "nodes"); Printed (Staging total);
               Printed (UsingQuery query)]
              query total "nodes" _ counts failure Hle eq_refl eq_refl eq_refl)
    as (H1 & H2 & H3 & _).
  pose proof (running_totals_wrap counts 0 0 eq_refl) as Hwrap.
  pose proof wrap64_in_range as Hsmall.
  rewrite Hrun. cbn [returned world trace].
  repeat (split; [assumption || reflexivity|]). reflexivity.
Qed.

(** C7 as stated fails on the total: a stub that answers [2^62] to every
    call gets two records in chunks of one; the sum of the two counts is
    [2^63], and the total printed after the second chunk is [-2^63]. *)
Lemma load_nodes_total_wraps :
  let run :=
    load_nodes (const_executor 4611686018427387904)
      {| columns := ["id"]; to_dict_records := [10; 20]%nat |}
      "id" "Person" 1 tt in
  returned run = Ok tt /\
  map fst (progress (trace run)) =
    [4611686018427387904; -9223372036854775808]%Z /\
  running_sums 0 [4611686018427387904; 4611686018427387904]%Z =
    [4611686018427387904; 9223372036854775808]%Z.
Proof.
  vm_compute. repeat split.
Qed.

Section Additive.

Context {Rec World : Type}.
Variable run_cypher :
  string -> option (list Rec) -> World -> result frame * World.
Variable per_record : Rec -> Z.
Hypothesis additive :
  forall (q : string) (recs : list Rec) (w : World),
  bind (fst (run_cypher q (Some recs) w)) iloc00 =
  Ok (sum_counts (map per_record recs)).

Lemma sum_counts_app (a b : list Z) :
  sum_counts (a ++ b) = (sum_counts a + sum_counts b)%Z.
Proof.
  unfold sum_counts. induction a as [|x a IH]; simpl; [reflexivity | lia].
Qed.

(** With a count that adds up over the records, every chunk succeeds and
    the counts add up to the count of all the records put together. *)
Lemma execute_all_additive (query : string) (cs : list (list Rec)) :
  forall w : World,
  sum_counts (fst (fst (execute_all run_cypher query cs w))) =
  sum_counts (map per_record (List.concat cs)).
Proof.
  induction cs as [|recs cs IH]; intros w; simpl; [reflexivity|].
  pose proof (additive query recs w) as Hadd.
  destruct (run_cypher query (Some recs) w) as [r w1]. simpl in Hadd.
  rewrite Hadd. specialize (IH w1).
  destruct (execute_all run_cypher query cs w1) as [[counts failure] w2].
  simpl in *. rewrite map_app, sum_counts_app, <- IH. reflexivity.
Qed.

End Additive.

Lemma load_nodes_final_count {Rec World : Type}
    (run_cypher : string -> option (list Rec) -> World -> result frame * World)
    (node_df : DataFrame Rec) (key label : string) (chunk_size : Z) (w : World)
    (cs : list (list Rec)) :
  chunks (to_dict_records node_df) chunk_size = Ok cs ->
  final_count (trace (load_nodes run_cypher node_df key label chunk_size w)) =
  wrap64
    (sum_counts (fst (fst (execute_all run_cypher
                             (_make_node_merge_query key label (columns node_df))
                             cs w)))).
Proof.
  intros Hcs.
  pose proof (load_nodes_run run_cypher node_df key label chunk_size w cs Hcs) as Hrun.
  pose proof (execute_all_reached run_cypher
                (_make_node_merge_query key label (columns node_df)) cs w) as Hk.
  cbv zeta in Hrun.
  destruct (execute_all run_cypher _ cs w) as [[counts failure] w'].
  rewrite Hrun. cbn [trace fst].
  apply header_loop_projections; [apply Hk | reflexivity ..].
Qed.

Lemma load_rels_final_count {Rec World : Type}
    (run_cypher : string -> option (list Rec) -> World -> result frame * World)
    (rel_df : DataFrame Rec) (labels skey tkey : pyval) (rel_type : string)
    (rel_key : option string) (chunk_size : Z) (w : World)
    (cs : list (list Rec)) (query : string) :
  chunks (to_dict_records rel_df) chunk_size = Ok cs ->
  _make_rel_merge_query labels skey tkey rel_type (columns rel_df) rel_key =
    Ok query ->
  final_count (trace (load_rels run_cypher rel_df labels skey tkey rel_type
                        rel_key chunk_size w)) =
  wrap64 (sum_counts (fst (fst (execute_all run_cypher query cs w)))).
Proof.
  intros Hcs Hq.
  pose proof (load_rels_run run_cypher rel_df labels skey tkey rel_type rel_key
                chunk_size w cs query Hcs Hq) as Hrun.
  pose proof (execute_all_reached run_cypher query cs w) as Hk.
  cbv zeta in Hrun.
  destruct (execute_all run_cypher query cs w) as [[counts failure] w'].
  rewrite Hrun. cbn [trace fst].
  apply header_loop_projections; [apply Hk | reflexivity ..].
Qed.

(** C1, as amended: for every chunk size the count a loader reports last
    is the sum of the counts the execution capability returned for the
    chunks of that size, added up as 64-bit integers: it is that sum
    wrapped into [-2^63 .. 2^63 - 1], so the sum itself when the sum
    lies there.  The sum may change with the chunk size, and does not
    when each call's count adds up over its records. *)
Theorem load_total_is_sum :
  forall (Rec World : Type)
         (run_cypher : string -> option (list Rec) -> World -> result frame * World)
         (df : DataFrame Rec) (key label : string) (labels skey tkey : pyval)
         (rel_type : string) (rel_key : option string) (chunk_size : Z)
         (w : World),
  let nodes := load_nodes run_cypher df key label chunk_size w in
  let rels :=
    load_rels run_cypher df labels skey tkey rel_type rel_key chunk_size w in
  exists cs,
    chunks (to_dict_records df) chunk_size = Ok cs /\
    final_count (trace nodes) =
      wrap64
        (sum_counts
           (fst (fst (execute_all run_cypher
                        (_make_node_merge_query key label (columns df)) cs w)))) /\
    (forall q,
       _make_rel_merge_query labels skey tkey rel_type (columns df) rel_key = Ok q ->
       final_count (trace rels) =
         wrap64 (sum_counts (fst (fst (execute_all run_cypher q cs w))))) /\
    (forall z : Z, (- 2 ^ 63 <= z < 2 ^ 63)%Z -> wrap64 z = z) /\
    (forall per_record : Rec -> Z,
       (forall q recs w0,
          bind (fst (run_cypher q (Some recs) w0)) iloc00 =
          Ok (sum_counts (map per_record recs))) ->
       final_count (trace nodes) =
         wrap64 (sum_counts (map per_record (to_dict_records df))) /\
       (is_ok (_make_rel_merge_query labels skey tkey rel_type (columns df)
                 rel_key) = true ->
        final_count (trace rels) =
          wrap64 (sum_counts (map per_record (to_dict_records df))))).
Proof.
  intros Rec World run_cypher df key label labels skey tkey rel_type rel_key
    chunk_size w nodes rels.
  destruct (chunks_chunk_at (to_dict_records df) chunk_size)
    as (c & Hcs & Hcover & _).
  match type of Hcs with _ = Ok ?l => set (cs := l) in * end.
  assert (Hcat : List.concat cs = to_dict_records df).
  { unfold cs. rewrite concat_chunk_at. now apply firstn_all2. }
  exists cs. split; [exact Hcs|].
  split; [now apply load_nodes_final_count|].
  split; [intros q Hq; now apply load_rels_final_count|].
  split; [exact wrap64_in_range|].
  intros per_record Hadd. split.
  - unfold nodes. rewrite (load_nodes_final_count _ _ _ _ _ _ cs Hcs).
    rewrite (execute_all_additive run_cypher per_record Hadd).
    now rewrite Hcat.
  - intros Hok.
    destruct (_make_rel_merge_query labels skey tkey rel_type (columns df) rel_key)
      as [q|e] eqn:Hq; [|discriminate Hok].
    unfold rels. rewrite (load_rels_final_count _ _ _ _ _ _ _ _ _ cs q Hcs Hq).
    rewrite (execute_all_additive run_cypher per_record Hadd).
    now rewrite Hcat.
Qed.

(** C1 as stated fails: a stub that answers 1 to every call reports 2
    for two records in chunks of one and 1 for the same records in one
    chunk of two; and a stub that answers [2^62] to every call reports
    [-2^63] for two records in chunks of one, where the two counts add up
    to [2^63]. *)
Lemma load_total_depends_on_chunk_size :
  final_count
    (trace (load_nodes (const_executor 1)
              {| columns := ["id"]; to_dict_records := [10; 20]%nat |}
              "id" "Person" 1 tt)) = 2%Z /\
  final_count
    (trace (load_nodes (const_executor 1)
              {| columns := ["id"]; to_dict_records := [10; 20]%nat |}
              "id" "Person" 2 tt)) = 1%Z /\
  final_count
    (trace (load_nodes (const_executor 4611686018427387904)
              {| columns := ["id"]; to_dict_records := [10; 20]%nat |}
              "id" "Person" 1 tt)) = (-9223372036854775808)%Z /\
  sum_counts [4611686018427387904; 4611686018427387904]%Z =
    9223372036854775808%Z.
Proof.
  repeat split; vm_compute; reflexivity.
Qed.

(** ** Key and label normalization *)

Lemma make_map_not_str_or_tuple (x : pyval) :
  is_str_or_tuple x = false ->
  _make_map x = Raise (Exception "Entry must of type string or tuple").
Proof.
  destruct x; simpl; intros H; try discriminate H; reflexivity.
Qed.

Lemma make_map_str_or_tuple (x : pyval) :
  is_str_or_tuple x = true -> exists items, _make_map x = Ok items.
Proof.
  destruct x; simpl; intros H; try discriminate H; eexists; reflexivity.
Qed.

(** The three [_make_map] calls come before any subscript: an argument
    that is neither a string nor a tuple makes the synthesizer raise the
    [Exception] of [_make_map], whatever the other arguments are. *)
Lemma rel_query_bad_type (labels skey tkey : pyval) (rel_type : string)
    (cols : list string) (rel_key : option string) :
  is_str_or_tuple labels && is_str_or_tuple skey && is_str_or_tuple tkey = false ->
  _make_rel_merge_query labels skey tkey rel_type cols rel_key =
  Raise (Exception "Entry must of type string or tuple").
Proof.
  intros H. unfold _make_rel_merge_query.
  destruct (is_str_or_tuple labels) eqn:Hl.
  - destruct (make_map_str_or_tuple _ Hl) as [lm ->]. cbn [bind].
    destruct (is_str_or_tuple skey) eqn:Hs.
    + destruct (make_map_str_or_tuple _ Hs) as [sm ->]. cbn [bind].
      simpl in H. now rewrite (make_map_not_str_or_tuple _ H).
    + now rewrite (make_map_not_str_or_tuple _ Hs).
  - now rewrite (make_map_not_str_or_tuple _ Hl).
Qed.

(** C6, as amended: [_make_map] tests the type only.  An argument that is
    neither a string nor a tuple raises its [Exception], before any
    template is built and before anything is submitted; a string [s]
    gives [(s, s)]; a tuple comes back as it is, whatever its length, so
    a valid pair gives that pair. *)
Theorem make_map_shapes :
  forall (labels skey tkey : pyval) (rel_type : string) (cols : list string)
         (rel_key : option string),
  (forall x, is_str_or_tuple x = false ->
             _make_map x = Raise (Exception "Entry must of type string or tuple")) /\
  (forall s, _make_map (PStr s) = Ok [s; s]) /\
  (forall items, _make_map (PTuple items) = Ok items) /\
  (forall x, valid_mapping x = true ->
             _make_map x = Ok [fst (mapping_of x); snd (mapping_of x)]) /\
  (is_str_or_tuple labels && is_str_or_tuple skey && is_str_or_tuple tkey = false ->
   _make_rel_merge_query labels skey tkey rel_type cols rel_key =
     Raise (Exception "Entry must of type string or tuple") /\
   forall (Rec World : Type)
          (run_cypher : string -> option (list Rec) -> World -> result frame * World)
          (rows : list Rec) (chunk_size : Z) (w : World),
     let run :=
       load_rels run_cypher {| columns := cols; to_dict_records := rows |}
         labels skey tkey rel_type rel_key chunk_size w in
     returned run = Raise (Exception "Entry must of type string or tuple") /\
     submitted_queries (trace run) = [] /\
     world run = w).
Proof.
  intros labels skey tkey rel_type cols rel_key.
  split; [exact make_map_not_str_or_tuple|].
  split; [reflexivity|]. split; [reflexivity|].
  split; [exact valid_mapping_make_map|].
  intros Hbad.
  pose proof (rel_query_bad_type labels skey tkey rel_type cols rel_key Hbad) as Hq.
  split; [exact Hq|].
  intros Rec World run_cypher rows chunk_size w run.
  unfold run. rewrite (load_rels_synthesis_error run_cypher
    {| columns := cols; to_dict_records := rows |} labels skey tkey rel_type
    rel_key chunk_size w _ Hq).
  repeat split.
Qed.

(** C6 as stated fails: a tuple of three items is no valid pair, yet
    [_make_map] returns it and the query is built from its first two
    items; a tuple of one item is returned too, and the failure comes
    later, as an [IndexError] while the template is built. *)
Lemma make_map_accepts_any_tuple :
  valid_mapping (PTuple ["a"; "b"; "c"]) = false /\
  _make_map (PTuple ["a"; "b"; "c"]) = Ok ["a"; "b"; "c"] /\
  _make_rel_merge_query (PStr "Person") (PTuple ["a"; "b"; "c"]) (PStr "id")
    "KNOWS" [] None =
  _make_rel_merge_query (PStr "Person") (PTuple ["a"; "b"]) (PStr "id")
    "KNOWS" [] None /\
  is_ok (_make_rel_merge_query (PStr "Person") (PTuple ["a"; "b"; "c"])
           (PStr "id") "KNOWS" [] None) = true /\
  valid_mapping (PTuple ["a"]) = false /\
  _make_map (PTuple ["a"]) = Ok ["a"] /\
  _make_rel_merge_query (PStr "Person") (PTuple ["a"]) (PStr "id")
    "KNOWS" [] None = Raise (IndexError "tuple index out of range").
Proof.
  repeat split.
Qed.

(** ** Maintenance deletes *)

(** C9: each maintenance delete submits one statement, batched by
    [CALL { ... } IN TRANSACTIONS OF batch_size ROWS]; the relationship
    delete puts the label on its source node when a source label is
    given and leaves the node bare when it is not; the node delete is a
    [DETACH DELETE] of the nodes of the label. *)
Theorem delete_statements :
  forall (Rec World : Type)
         (run_cypher : string -> option (list Rec) -> World -> result frame * World)
         (rel_type node_label : string) (batch_size : Z) (w : World),
  (forall src : string,
     trace (delete_relationships run_cypher rel_type batch_size (Some src) w) =
     [Submitted
        (nl ++ "        MATCH(:" ++ src ++ ")-[r:" ++ rel_type ++ "]->()" ++ nl ++
         in_transactions "r" "DELETE r" batch_size ++ nl ++ "        ")%string
        None]) /\
  trace (delete_relationships run_cypher rel_type batch_size None w) =
    [Submitted
       (nl ++ "        MATCH()-[r:" ++ rel_type ++ "]->()" ++ nl ++
        in_transactions "r" "DELETE r" batch_size ++ nl ++ "        ")%string
       None] /\
  trace (delete_nodes run_cypher node_label batch_size w) =
    [Submitted
       (nl ++ "        MATCH(n:" ++ node_label ++ ")" ++ nl ++
        in_transactions "n" "DETACH DELETE n" batch_size ++ nl ++ "        ")%string
       None] /\
  in_transactions "n" "DETACH DELETE n" batch_size =
    ("        CALL {" ++ nl ++
     "            WITH n" ++ nl ++
     "            DETACH DELETE n" ++ nl ++
     "        } IN TRANSACTIONS OF " ++ str_int batch_size ++ " ROWS")%string.
Proof.
  intros Rec World run_cypher rel_type node_label batch_size w.
  assert (Htrace : forall q (k : frame -> prog Rec World unit),
            (forall r w', trace (k r w') = []) ->
            trace (pbind (gds_run_cypher run_cypher q None) k w) =
            [Submitted q None]).
  { intros q k Hk. unfold pbind, gds_run_cypher.
    destruct (run_cypher q None w) as [[res|e] w1]; cbn [returned world trace].
    - now rewrite Hk.
    - reflexivity. }
  split; [intros src|split; [|split]].
  - unfold delete_relationships. rewrite Htrace by reflexivity.
    do 2 f_equal. unfold in_transactions. str_norm. reflexivity.
  - unfold delete_relationships. rewrite Htrace by reflexivity.
    do 2 f_equal. unfold in_transactions. str_norm. reflexivity.
  - unfold delete_nodes. rewrite Htrace by reflexivity.
    do 2 f_equal. unfold in_transactions. str_norm. reflexivity.
  - unfold in_transactions. str_norm. reflexivity.
Qed.

(** ** Runs on concrete inputs *)

Example chunks_7_by_3 :
  chunks [1; 2; 3; 4; 5; 6; 7]%nat 3 = Ok [[1; 2; 3]; [4; 5; 6]; [7]]%nat /\
  chunks [1; 2; 3]%nat (-2) = Ok [[1]; [2]; [3]]%nat /\
  chunks [1; 2; 3]%nat default_chunk_size = Ok [[1; 2; 3]]%nat.
Proof.
  repeat split.
Qed.

Example chunks_25000_by_10000 :
  bind (chunks (repeat tt (Z.to_nat 25000)) default_chunk_size)
       (fun cs => Ok (map (fun c => Z.of_nat (List.length c)) cs)) =
  Ok [10000; 10000; 5000]%Z.
Proof.
  vm_compute. reflexivity.
Qed.

Example node_query_person :
  _make_node_merge_query "id" "Person" ["id"; "name"; "age"] =
  ("UNWIND $recs AS rec" ++ nl ++
   "MERGE(n:Person {id: rec.id})" ++ nl ++
   "SET n.name = rec.name, n.age = rec.age" ++ nl ++
   "RETURN count(n) AS nodeLoadedCount")%string.
Proof.
  reflexivity.
Qed.

Example rel_query_knows :
  _make_rel_merge_query (PTuple ["Person"; "City"]) (PTuple ["personId"; "id"])
    (PStr "city") "LIVES_IN" ["id"; "city"; "since"; "rent"] (Some "since") =
  Ok (tab ++ "UNWIND $recs AS rec" ++ nl ++
      "    MATCH(s:Person {personId: rec.id})" ++ nl ++
      "    MATCH(t:City {city: rec.city})" ++ nl ++
      tab ++ "MERGE(s)-[r:LIVES_IN {since: rec.since}]->(t)" ++ nl ++
      tab ++ "SET r.rent = rec.rent" ++ nl ++
      tab ++ "RETURN count(r) AS relLoadedCount")%string.
Proof.
  reflexivity.
Qed.

Example delete_relationships_default :
  submitted_queries
    (trace (delete_relationships (@len_executor nat) "KNOWS" default_batch_size
              (Some "Person") tt)) =
  [(nl ++ "        MATCH(:Person)-[r:KNOWS]->()" ++ nl ++
    "        CALL {" ++ nl ++
    "            WITH r" ++ nl ++
    "            DELETE r" ++ nl ++
    "        } IN TRANSACTIONS OF 1000 ROWS" ++ nl ++
    "        ")%string].
Proof.
  reflexivity.
Qed.

Example load_nodes_len_stub :
  let run :=
    load_nodes len_executor
      {| columns := ["id"; "name"]; to_dict_records := [1; 2; 3; 4; 5; 6; 7]%nat |}
      "id" "Person" 3 tt in
  returned run = Ok tt /\
  submitted_chunks (trace run) = [[1; 2; 3]; [4; 5; 6]; [7]]%nat /\
  progress (trace run) = [(3%Z, 7%nat); (6%Z, 7%nat); (7%Z, 7%nat)] /\
  final_count (trace run) = 7%Z.
Proof.
  vm_compute. repeat split.
Qed.

Example load_nodes_second_chunk_fails :
  let run :=
    load_nodes (failing_executor 1)
      {| columns := ["id"]; to_dict_records := [1; 2; 3; 4; 5]%nat |}
      "id" "Person" 2 0%nat in
  returned run = Raise (DriverError "connection lost") /\
  submitted_chunks (trace run) = [[1; 2]; [3; 4]]%nat /\
  progress (trace run) = [(2%Z, 5%nat)] /\
  world run = 2%nat.
Proof.
  vm_compute. repeat split.
Qed.

Example load_rels_bad_key :
  let run :=
    load_rels (@len_executor nat)
      {| columns := ["a"; "b"]; to_dict_records := [1; 2]%nat |}
      (PStr "Person") (PList ["a"; "a"]) (PStr "b") "KNOWS" None 1 tt in
  returned run = Raise (Exception "Entry must of type string or tuple") /\
  trace run = [Printed (Banner "KNOWS" "relationships"); Printed (Staging 2)].
Proof.
  vm_compute. repeat split.
Qed.

(** * Further properties *)

(** ** More on [chunks] *)

(** The clamped chunk size, as a number of records. *)
Lemma clamped_size (n : Z) :
  Z.of_nat (Z.to_nat (Z.max 1 n)) = Z.max 1 n /\ (1 <= Z.to_nat (Z.max 1 n))%nat.
Proof.
  split; lia.
Qed.

(** A count that covers the list and overshoots it by less than one
    chunk is the count [chunks] uses. *)
Lemma chunks_of_count {A : Type} (xs : list A) (n : Z) (c : nat) :
  (List.length xs <= c * Z.to_nat (Z.max 1 n) <
   List.length xs + Z.to_nat (Z.max 1 n))%nat ->
  chunks xs n = Ok (map (chunk_at (Z.to_nat (Z.max 1 n)) xs) (seq 0 c)).
Proof.
  intros Hc.
  destruct (chunks_chunk_at xs n) as (c' & Heq & Hc').
  rewrite Heq. do 3 f_equal. nia.
Qed.

Lemma chunks_length {A : Type} (xs : list A) (n : Z) (cs : list (list A)) :
  chunks xs n = Ok cs ->
  Z.of_nat (List.length cs) =
  ((Z.of_nat (List.length xs) + Z.max 1 n - 1) / Z.max 1 n)%Z.
Proof.
  intros Hcs.
  destruct (chunks_chunk_at xs n) as (c & Heq & Hlo & Hhi).
  destruct (clamped_size n) as [Hm _].
  rewrite Hcs in Heq. injection Heq as ->.
  rewrite length_map, length_seq.
  apply Z.div_unique with
    (r := (Z.of_nat (List.length xs) + Z.max 1 n - 1 - Z.max 1 n * Z.of_nat c)%Z);
    [left | ring].
  rewrite <- Hm. nia.
Qed.

(** X1: [chunks] yields the ceiling of [len(xs) / max(1, n)] chunks, so
    none for the empty list. *)
Theorem chunks_count : forall (A : Type) (xs : list A) (n : Z),
  exists cs,
    chunks xs n = Ok cs /\
    Z.of_nat (List.length cs) =
    ((Z.of_nat (List.length xs) + Z.max 1 n - 1) / Z.max 1 n)%Z /\
    (cs = [] <-> xs = []).
Proof.
  intros A xs n.
  destruct (chunks_chunk_at xs n) as (c & Heq & Hlo & Hhi).
  destruct (clamped_size n) as [_ Hm1].
  eexists; split; [exact Heq|].
  split; [now apply chunks_length|].
  split; intros H.
  - apply (f_equal (@List.length _)) in H.
    rewrite length_map, length_seq in H. simpl in H. subst c.
    destruct xs; [reflexivity | simpl in Hlo; lia].
  - subst xs. simpl in Hhi.
    destruct c as [|c]; [reflexivity | nia].
Qed.

Lemma nth_map_seq_chunk {A : Type} (m : nat) (xs : list A) (c k : nat) :
  nth k (map (chunk_at m xs) (seq 0 c)) [] =
  if (k <? c)%nat then chunk_at m xs k else [].
Proof.
  destruct (Nat.ltb_spec k c) as [Hk|Hk].
  - apply nth_error_nth. now apply nth_error_map_seq.
  - apply nth_overflow. now rewrite length_map, length_seq.
Qed.

(** X2: record [j] of chunk [k] is record [k * max(1, n) + j] of the
    input, for every [j] below the chunk size; past the last chunk and
    past the end of a chunk there is no record on either side. *)
Theorem chunks_index : forall (A : Type) (xs : list A) (n : Z),
  exists cs,
    chunks xs n = Ok cs /\
    forall k j : nat,
      (j < Z.to_nat (Z.max 1 n))%nat ->
      nth_error (nth k cs []) j =
      nth_error xs (k * Z.to_nat (Z.max 1 n) + j).
Proof.
  intros A xs n.
  destruct (chunks_chunk_at xs n) as (c & Heq & Hlo & Hhi).
  set (m := Z.to_nat (Z.max 1 n)) in *.
  eexists; split; [exact Heq|].
  intros k j Hj. rewrite nth_map_seq_chunk.
  destruct (Nat.ltb_spec k c) as [Hk|Hk].
  - unfold chunk_at. rewrite nth_error_firstn.
    destruct (Nat.ltb_spec j m) as [_|H]; [|lia].
    now rewrite nth_error_skipn.
  - symmetry. rewrite nth_error_nil. apply nth_error_None. nia.
Qed.

(** X3: whatever [n] is, no chunk is empty and none holds more than
    [max(1, n)] records. *)
Theorem chunks_bounded : forall (A : Type) (xs : list A) (n : Z),
  exists cs,
    chunks xs n = Ok cs /\
    Forall (fun c => (1 <= Z.of_nat (List.length c) <= Z.max 1 n)%Z) cs.
Proof.
  intros A xs n.
  destruct (chunks_chunk_at xs n) as (c & Heq & Hlo & Hhi).
  destruct (clamped_size n) as [Hm Hm1].
  set (m := Z.to_nat (Z.max 1 n)) in *.
  eexists; split; [exact Heq|].
  apply Forall_forall. intros ch Hin.
  apply in_map_iff in Hin. destruct Hin as (k & <- & Hk).
  apply in_seq in Hk. rewrite length_chunk_at, <- Hm. nia.
Qed.

(** X4: a chunk size of at least the length of a non-empty list gives
    the whole list as its one chunk. *)
Theorem chunks_single : forall (A : Type) (xs : list A) (n : Z),
  xs <> [] ->
  (Z.of_nat (List.length xs) <= n)%Z ->
  chunks xs n = Ok [xs].
Proof.
  intros A xs n Hne Hn.
  assert (Hpos : (0 < List.length xs)%nat)
    by (destruct xs; [congruence | simpl; lia]).
  rewrite (chunks_of_count xs n 1) by lia.
  simpl. unfold chunk_at. simpl.
  now rewrite firstn_all2 by lia.
Qed.

Lemma chunks_single_witness :
  chunks ["a"; "b"; "c"] 5 = Ok [["a"; "b"; "c"]].
Proof.
  apply (chunks_single string ["a"; "b"; "c"] 5); [discriminate | simpl; lia].
Defined.

Lemma chunk_at_one {A : Type} (xs : list A) :
  map (chunk_at 1 xs) (seq 0 (List.length xs)) = map (fun x => [x]) xs.
Proof.
  induction xs as [|x xs IH]; [reflexivity|].
  cbn [List.length seq map]. f_equal.
  - rewrite <- IH, <- seq_shift, map_map. apply map_ext.
    intros k. unfold chunk_at. now rewrite !Nat.mul_1_r.
Qed.

(** X5: a chunk size of 1 or less puts every record in a chunk of its
    own. *)
Theorem chunks_singletons : forall (A : Type) (xs : list A) (n : Z),
  (n <= 1)%Z ->
  chunks xs n = Ok (map (fun x => [x]) xs).
Proof.
  intros A xs n Hn.
  rewrite (chunks_of_count xs n (List.length xs)).
  - replace (Z.to_nat (Z.max 1 n)) with 1%nat by lia.
    now rewrite chunk_at_one.
  - replace (Z.to_nat (Z.max 1 n)) with 1%nat by lia. lia.
Qed.

Lemma chunks_singletons_witness :
  chunks ["a"; "b"] (-3) = Ok [["a"]; ["b"]].
Proof.
  apply (chunks_singletons string ["a"; "b"] (-3)). lia.
Defined.

Lemma chunk_at_app_left {A : Type} (m : nat) (xs ys : list A) (k : nat) :
  (S k * m <= List.length xs)%nat ->
  chunk_at m (xs ++ ys) k = chunk_at m xs k.
Proof.
  intros Hk. unfold chunk_at.
  rewrite skipn_app, firstn_app, length_skipn.
  replace (k * m - List.length xs)%nat with 0%nat by lia.
  replace (m - (List.length xs - k * m))%nat with 0%nat by lia.
  simpl. now rewrite app_nil_r.
Qed.

Lemma chunk_at_app_right {A : Type} (m : nat) (xs ys : list A) (q s : nat) :
  List.length xs = (q * m)%nat ->
  chunk_at m (xs ++ ys) (q + s) = chunk_at m ys s.
Proof.
  intros Hq. unfold chunk_at.
  rewrite skipn_app, (skipn_all2 xs) by lia.
  simpl. do 2 f_equal. lia.
Qed.

Lemma map_chunk_at_shift {A : Type} (m : nat) (xs ys : list A) (q c : nat) :
  List.length xs = (q * m)%nat ->
  forall s : nat,
  map (chunk_at m (xs ++ ys)) (seq (q + s) c) = map (chunk_at m ys) (seq s c).
Proof.
  intros Hq. induction c as [|c IH]; intros s; [reflexivity|].
  cbn [seq map]. rewrite chunk_at_app_right by exact Hq. f_equal.
  rewrite <- Nat.add_succ_r. apply IH.
Qed.

(** X6: when the first list fills a whole number of chunks, chunking a
    concatenation is chunking each part: the chunks of [xs ++ ys] are the
    chunks of [xs] followed by the chunks of [ys]. *)
Theorem chunks_app : forall (A : Type) (xs ys : list A) (n : Z) (q : nat),
  Z.of_nat (List.length xs) = (Z.of_nat q * Z.max 1 n)%Z ->
  exists cx cy,
    chunks xs n = Ok cx /\
    chunks ys n = Ok cy /\
    chunks (xs ++ ys) n = Ok (cx ++ cy).
Proof.
  intros A xs ys n q Hlen.
  destruct (clamped_size n) as [Hm Hm1].
  set (m := Z.to_nat (Z.max 1 n)) in *.
  assert (Hq : List.length xs = (q * m)%nat) by nia.
  destruct (chunks_chunk_at ys n) as (cy & Hy & Hylo & Hyhi). fold m in Hy, Hylo, Hyhi.
  exists (map (chunk_at m xs) (seq 0 q)), (map (chunk_at m ys) (seq 0 cy)).
  split; [apply chunks_of_count; fold m; lia|].
  split; [exact Hy|].
  rewrite (chunks_of_count (xs ++ ys) n (q + cy)).
  - fold m. rewrite seq_app, map_app. f_equal. f_equal.
    + apply map_ext_in. intros k Hk. apply in_seq in Hk.
      apply chunk_at_app_left. nia.
    + replace (0 + q)%nat with (q + 0)%nat by lia.
      now apply map_chunk_at_shift.
  - fold m. rewrite length_app. nia.
Qed.

Lemma chunks_app_witness :
  exists cx cy,
    chunks [1; 2; 3; 4]%nat 2 = Ok cx /\
    chunks [5; 6; 7]%nat 2 = Ok cy /\
    chunks ([1; 2; 3; 4] ++ [5; 6; 7])%nat 2 = Ok (cx ++ cy).
Proof.
  apply (chunks_app nat [1; 2; 3; 4]%nat [5; 6; 7]%nat 2 2). reflexivity.
Defined.

(** ** More on query synthesis *)

Lemma make_map_usable (x : pyval) :
  usable_mapping x = true ->
  exists rest,
    _make_map x = Ok (fst (first_two x) :: snd (first_two x) :: rest).
Proof.
  destruct x as [s|[|a [|b items]]|items|z|]; simpl; intros H;
    try discriminate H; eexists; reflexivity.
Qed.

Lemma make_map_short (x : pyval) :
  is_str_or_tuple x = true ->
  usable_mapping x = false ->
  _make_map x = Ok [] \/ exists a, _make_map x = Ok [a].
Proof.
  destruct x as [s|[|a [|b items]]|items|z|]; simpl; intros H1 H2;
    try discriminate H1; try discriminate H2;
    [left; reflexivity | right; eexists; reflexivity].
Qed.

(** The query built from normalized arguments of at least two items
    each. *)
Lemma rel_query_of_maps (labels skey tkey : pyval) (rel_type : string)
    (cols : list string) (rel_key : option string)
    (l0 l1 s0 s1 t0 t1 : string) (lr sr tr : list string) :
  _make_map labels = Ok (l0 :: l1 :: lr) ->
  _make_map skey = Ok (s0 :: s1 :: sr) ->
  _make_map tkey = Ok (t0 :: t1 :: tr) ->
  _make_rel_merge_query labels skey tkey rel_type cols rel_key =
  Ok (render (rel_statement l0 l1 s0 s1 t0 t1 rel_type rel_key cols)).
Proof.
  intros Hl Hs Ht.
  change (_make_rel_merge_query labels skey tkey rel_type cols rel_key)
    with (bind (_make_map labels) (fun lm =>
          bind (_make_map skey) (fun sm =>
          bind (_make_map tkey) (fun tm =>
            _make_rel_merge_query (PTuple lm) (PTuple sm) (PTuple tm)
              rel_type cols rel_key)))).
  rewrite Hl, Hs, Ht. cbn [bind].
  exact (rel_query_render (PTuple [l0; l1]) (PTuple [s0; s1])
           (PTuple [t0; t1]) rel_type cols rel_key eq_refl eq_refl eq_refl).
Qed.

(** X7: what [_make_rel_merge_query] does with every shape of labels and
    keys.  It reads the first two items of each argument, a string
    standing for the pair of itself: when each argument is a string or a
    tuple of two items or more it returns the query of those items; a
    tuple of fewer than two items, among strings and tuples, makes it
    raise [IndexError]; an argument of another type makes it raise the
    [Exception] of [_make_map]. *)
Theorem rel_query_outcome :
  forall (labels skey tkey : pyval) (rel_type : string) (cols : list string)
         (rel_key : option string),
  let q := _make_rel_merge_query labels skey tkey rel_type cols rel_key in
  let all_typed :=
    is_str_or_tuple labels && is_str_or_tuple skey && is_str_or_tuple tkey in
  let all_usable :=
    usable_mapping labels && usable_mapping skey && usable_mapping tkey in
  (all_usable = true ->
   q = Ok (render (rel_statement
                     (fst (first_two labels)) (snd (first_two labels))
                     (fst (first_two skey)) (snd (first_two skey))
                     (fst (first_two tkey)) (snd (first_two tkey))
                     rel_type rel_key cols))) /\
  (all_typed = true -> all_usable = false ->
   q = Raise (IndexError "tuple index out of range")) /\
  (all_typed = false ->
   q = Raise (Exception "Entry must of type string or tuple")) /\
  is_ok q = all_usable.
Proof.
  intros labels skey tkey rel_type cols rel_key q all_typed all_usable.
  assert (Husable : all_usable = true ->
            q = Ok (render (rel_statement
                     (fst (first_two labels)) (snd (first_two labels))
                     (fst (first_two skey)) (snd (first_two skey))
                     (fst (first_two tkey)) (snd (first_two tkey))
                     rel_type rel_key cols))).
  { unfold all_usable. intros H.
    apply andb_prop in H. destruct H as [H Ht].
    apply andb_prop in H. destruct H as [Hl Hs].
    destruct (make_map_usable _ Hl) as [lr Hml].
    destruct (make_map_usable _ Hs) as [sr Hms].
    destruct (make_map_usable _ Ht) as [tr Hmt].
    unfold q. now apply (rel_query_of_maps _ _ _ _ _ _ _ _ _ _ _ _ lr sr tr). }
  assert (Hshort : all_typed = true -> all_usable = false ->
            q = Raise (IndexError "tuple index out of range")).
  { unfold all_typed, all_usable, q. clear Husable. intros Ht Hu.
    destruct labels as [l|[|l0 [|l1 lr]]|?|?|]; try discriminate Ht;
      destruct skey as [s|[|s0 [|s1 sr]]|?|?|]; try discriminate Ht;
      destruct tkey as [t|[|t0 [|t1 tr]]|?|?|]; try discriminate Ht;
      try discriminate Hu; reflexivity. }
  assert (Hbad : all_typed = false ->
            q = Raise (Exception "Entry must of type string or tuple")).
  { intros H. unfold q. now apply rel_query_bad_type. }
  split; [exact Husable|]. split; [exact Hshort|]. split; [exact Hbad|].
  destruct all_usable eqn:Hu.
  - now rewrite Husable.
  - destruct all_typed eqn:Ht.
    + now rewrite Hshort.
    + now rewrite Hbad.
Qed.

Lemma node_statement_props (key label : string) (cols cols' : list string) :
  node_props key cols = node_props key cols' ->
  node_statement key label cols = node_statement key label cols'.
Proof.
  intros H. unfold node_statement. now rewrite H.
Qed.

Lemma node_props_idem (key : string) (cols : list string) :
  node_props key (node_props key cols) = node_props key cols /\
  node_props key (key :: cols) = node_props key cols.
Proof.
  unfold node_props. split.
  - induction cols as [|c cols IH]; [reflexivity|]. simpl.
    destruct (String.eqb_spec c key) as [->|Hne]; simpl; [exact IH|].
    destruct (String.eqb_spec c key) as [->|_]; [congruence|].
    simpl. now rewrite IH.
  - simpl. now rewrite String.eqb_refl.
Qed.

(** X8: the node-upsert query depends on the column set only through its
    non-key columns: two column sets with the same non-key columns, in
    the same order, give the same query, so the key column may be among
    the columns, once or more, or left out. *)
Theorem node_query_ignores_key_column :
  forall (key label : string) (cols : list string),
  (forall cols',
     node_props key cols = node_props key cols' ->
     _make_node_merge_query key label cols =
     _make_node_merge_query key label cols') /\
  _make_node_merge_query key label (key :: cols) =
    _make_node_merge_query key label cols /\
  _make_node_merge_query key label (node_props key cols) =
    _make_node_merge_query key label cols.
Proof.
  intros key label cols.
  assert (H : forall cols',
            node_props key cols = node_props key cols' ->
            _make_node_merge_query key label cols =
            _make_node_merge_query key label cols').
  { intros cols' Hp. rewrite !node_query_render.
    now rewrite (node_statement_props key label cols cols' Hp). }
  destruct (node_props_idem key cols) as [Hidem Hcons].
  split; [exact H|]. split; symmetry; apply H; congruence.
Qed.

(** ** More on the loaders *)

Section LoaderRuns.

Context {Rec World : Type}.
Variable run_cypher :
  string -> option (list Rec) -> World -> result frame * World.

(** What a run of the loading loop over the chunks of [records] shows,
    behind any header that submits and reports nothing. *)
Lemma loop_run_observed (records : list Rec) (chunk_size : Z) (query : string)
    (what : string) (header : list (event Rec)) (w : World)
    (run : outcome Rec World unit) :
  submitted_chunks header = [] ->
  submitted_queries header = [] ->
  progress header = [] ->
  (forall cs,
     chunks records chunk_size = Ok cs ->
     let '(counts, failure, w') := execute_all run_cypher query cs w in
     run =
     Outcome (match failure with None => Ok tt | Some e => Raise e end) w'
       (header ++
        loop_events query (List.length records) what
          (firstn (reached counts failure) cs) (running_totals 0 counts))) ->
  exists cs counts failure w',
    chunks records chunk_size = Ok cs /\
    List.concat cs = records /\
    Forall (fun c => (1 <= Z.of_nat (List.length c) <= Z.max 1 chunk_size)%Z) cs /\
    execute_all run_cypher query cs w = (counts, failure, w') /\
    (reached counts failure <= List.length cs)%nat /\
    (failure = None -> reached counts failure = List.length cs) /\
    returned run = match failure with None => Ok tt | Some e => Raise e end /\
    world run = w' /\
    trace run =
      header ++
      loop_events query (List.length records) what
        (firstn (reached counts failure) cs) (running_totals 0 counts) /\
    submitted_chunks (trace run) = firstn (reached counts failure) cs /\
    submitted_queries (trace run) = repeat query (reached counts failure) /\
    progress (trace run) =
      map (fun c => (c, List.length records)) (running_totals 0 counts) /\
    final_count (trace run) = wrap64 (sum_counts counts).
Proof.
  intros Hsc Hsq Hpr Hrun.
  destruct (chunks_chunk_at records chunk_size) as (c & Hcs & Hcover & Hover).
  destruct (clamped_size chunk_size) as [Hm Hm1].
  match type of Hcs with _ = Ok ?l => set (cs := l) in * end.
  specialize (Hrun cs Hcs).
  pose proof (execute_all_reached run_cypher query cs w) as Hk.
  destruct (execute_all run_cypher query cs w) as [[counts failure] w'] eqn:Hex.
  destruct Hk as [Hle Hall].
  destruct (header_loop_projections header query (List.length records) what cs
              counts failure Hle Hsc Hsq Hpr) as (H1 & H2 & H3 & H4).
  exists cs, counts, failure, w'.
  split; [exact Hcs|].
  split; [unfold cs; rewrite concat_chunk_at; now apply firstn_all2|].
  split.
  { apply Forall_forall. intros ch Hin. unfold cs in Hin.
    apply in_map_iff in Hin. destruct Hin as (k & <- & Hin).
    apply in_seq in Hin. rewrite length_chunk_at, <- Hm. nia. }
  split; [exact Hex|]. split; [exact Hle|]. split; [exact Hall|].
  rewrite Hrun. cbn [returned world trace].
  repeat (split; [assumption || reflexivity|]). assumption.
Qed.

Lemma load_nodes_observed (node_df : DataFrame Rec) (key label : string)
    (chunk_size : Z) (w : World) :
  let records := to_dict_records node_df in
  let query := _make_node_merge_query key label (columns node_df) in
  let run := load_nodes run_cypher node_df key label chunk_size w in
  let header :=
    [Printed (Banner label "nodes"); Printed (Staging (List.length records));
     Printed (UsingQuery query)] in
  exists cs counts failure w',
    chunks records chunk_size = Ok cs /\
    List.concat cs = records /\
    Forall (fun c => (1 <= Z.of_nat (List.length c) <= Z.max 1 chunk_size)%Z) cs /\
    execute_all run_cypher query cs w = (counts, failure, w') /\
    (reached counts failure <= List.length cs)%nat /\
    (failure = None -> reached counts failure = List.length cs) /\
    returned run = match failure with None => Ok tt | Some e => Raise e end /\
    world run = w' /\
    trace run =
      header ++
      loop_events query (List.length records) "nodes"
        (firstn (reached counts failure) cs) (running_totals 0 counts) /\
    submitted_chunks (trace run) = firstn (reached counts failure) cs /\
    submitted_queries (trace run) = repeat query (reached counts failure) /\
    progress (trace run) =
      map (fun c => (c, List.length records)) (running_totals 0 counts) /\
    final_count (trace run) = wrap64 (sum_counts counts).
Proof.
  intros records query run header.
  apply loop_run_observed; try reflexivity.
  intros cs Hcs. exact (load_nodes_run run_cypher node_df key label chunk_size w cs Hcs).
Qed.

Lemma load_rels_observed (rel_df : DataFrame Rec) (labels skey tkey : pyval)
    (rel_type : string) (rel_key : option string) (chunk_size : Z) (w : World)
    (query : string) :
  _make_rel_merge_query labels skey tkey rel_type (columns rel_df) rel_key =
    Ok query ->
  let records := to_dict_records rel_df in
  let run :=
    load_rels run_cypher rel_df labels skey tkey rel_type rel_key chunk_size w in
  let header :=
    [Printed (Banner rel_type "relationships");
     Printed (Staging (List.length records)); Printed (UsingQuery query)] in
  exists cs counts failure w',
    chunks records chunk_size = Ok cs /\
    List.concat cs = records /\
    Forall (fun c => (1 <= Z.of_nat (List.length c) <= Z.max 1 chunk_size)%Z) cs /\
    execute_all run_cypher query cs w = (counts, failure, w') /\
    (reached counts failure <= List.length cs)%nat /\
    (failure = None -> reached counts failure = List.length cs) /\
    returned run = match failure with None => Ok tt | Some e => Raise e end /\
    world run = w' /\
    trace run =
      header ++
      loop_events query (List.length records) "relationships"
        (firstn (reached counts failure) cs) (running_totals 0 counts) /\
    submitted_chunks (trace run) = firstn (reached counts failure) cs /\
    submitted_queries (trace run) = repeat query (reached counts failure) /\
    progress (trace run) =
      map (fun c => (c, List.length records)) (running_totals 0 counts) /\
    final_count (trace run) = wrap64 (sum_counts counts).
Proof.
  intros Hq records run header.
  apply loop_run_observed; try reflexivity.
  intros cs Hcs.
  exact (load_rels_run run_cypher rel_df labels skey tkey rel_type rel_key
           chunk_size w cs query Hcs Hq).
Qed.

End LoaderRuns.

(** X9: once its query is synthesized, [load_rels] runs as [load_nodes]
    does: it prints its three header lines, then submits the chunks,
    which make up the records, in input order under that one query, each
    once, printing after each the running total, added up as 64-bit
    integers (the sum of the counts so far, wrapped into
    [-2^63 .. 2^63 - 1]); a failing chunk ends the run with its
    exception, with no later chunk submitted and the database left as
    that call left it. *)
Theorem load_rels_sequential :
  forall (Rec World : Type)
         (run_cypher : string -> option (list Rec) -> World -> result frame * World)
         (rel_df : DataFrame Rec) (labels skey tkey : pyval) (rel_type : string)
         (rel_key : option string) (chunk_size : Z) (w : World) (query : string),
  _make_rel_merge_query labels skey tkey rel_type (columns rel_df) rel_key =
    Ok query ->
  let total := List.length (to_dict_records rel_df) in
  let run :=
    load_rels run_cypher rel_df labels skey tkey rel_type rel_key chunk_size w in
  exists cs counts failure w',
    chunks (to_dict_records rel_df) chunk_size = Ok cs /\
    List.concat cs = to_dict_records rel_df /\
    execute_all run_cypher query cs w = (counts, failure, w') /\
    (reached counts failure <= List.length cs)%nat /\
    (failure = None -> reached counts failure = List.length cs) /\
    trace run =
      [Printed (Banner rel_type "relationships"); Printed (Staging total);
       Printed (UsingQuery query)] ++
      loop_events query total "relationships"
        (firstn (reached counts failure) cs) (running_totals 0 counts) /\
    submitted_chunks (trace run) = firstn (reached counts failure) cs /\
    submitted_queries (trace run) = repeat query (reached counts failure) /\
    progress (trace run) = map (fun c => (c, total)) (running_totals 0 counts) /\
    running_totals 0 counts = map wrap64 (running_sums 0 counts) /\
    returned run = match failure with None => Ok tt | Some e => Raise e end /\
    world run = w'.
Proof.
  intros Rec World run_cypher rel_df labels skey tkey rel_type rel_key
    chunk_size w query Hq total run.
  destruct (load_rels_observed run_cypher rel_df labels skey tkey rel_type
              rel_key chunk_size w query Hq)
    as (cs & counts & failure & w' & Hcs & Hcat & _ & Hex & Hle & Hall & Hret &
        Hw & Htr & Hsc & Hsq & Hpr & _).
  pose proof (running_totals_wrap counts 0 0 eq_refl) as Hwrap.
  exists cs, counts, failure, w'.
  repeat (split; [assumption|]). assumption.
Qed.

Lemma load_rels_sequential_witness :
  let rel_df := {| columns := ["a"; "b"]; to_dict_records := [1; 2; 3]%nat |} in
  let run :=
    load_rels (failing_executor 1) rel_df (PStr "P") (PStr "a") (PStr "b")
      "KNOWS" None 2 0%nat in
  exists cs counts failure w',
    chunks [1; 2; 3]%nat 2 = Ok cs /\
    execute_all (failing_executor 1)
      (render (rel_statement "P" "P" "a" "a" "b" "b" "KNOWS" None ["a"; "b"]))
      cs 0%nat = (counts, failure, w') /\
    List.concat cs = [1; 2; 3]%nat /\
    submitted_chunks (trace run) = firstn (reached counts failure) cs /\
    progress (trace run) = map (fun c => (c, 3%nat)) (running_totals 0 counts) /\
    returned run = match failure with None => Ok tt | Some e => Raise e end /\
    world run = w'.
Proof.
  intros rel_df run.
  destruct (load_rels_sequential nat nat (failing_executor 1) rel_df (PStr "P")
              (PStr "a") (PStr "b") "KNOWS" None 2 0%nat
              (render (rel_statement "P" "P" "a" "a" "b" "b" "KNOWS" None
                         ["a"; "b"]))
              eq_refl)
    as (cs & counts & failure & w' & Hcs & Hcat & Hex & _ & _ & _ & Hsc & _ &
        Hpr & _ & Hret & Hw).
  exists cs, counts, failure, w'.
  split; [exact Hcs|]. split; [exact Hex|]. split; [exact Hcat|].
  split; [exact Hsc|]. split; [exact Hpr|]. split; [exact Hret | exact Hw].
Defined.

(** X10: when synthesis raises, for a key of a type [_make_map] refuses
    or for a tuple too short to subscript, [load_rels] raises that
    exception after its first two lines: no query is printed, nothing is
    submitted and the database is untouched. *)
Theorem load_rels_synthesis_blocks :
  forall (Rec World : Type)
         (run_cypher : string -> option (list Rec) -> World -> result frame * World)
         (rel_df : DataFrame Rec) (labels skey tkey : pyval) (rel_type : string)
         (rel_key : option string) (chunk_size : Z) (w : World),
  usable_mapping labels && usable_mapping skey && usable_mapping tkey = false ->
  let run :=
    load_rels run_cypher rel_df labels skey tkey rel_type rel_key chunk_size w in
  returned run =
    (if is_str_or_tuple labels && is_str_or_tuple skey && is_str_or_tuple tkey
     then Raise (IndexError "tuple index out of range")
     else Raise (Exception "Entry must of type string or tuple")) /\
  trace run =
    [Printed (Banner rel_type "relationships");
     Printed (Staging (List.length (to_dict_records rel_df)))] /\
  world run = w.
Proof.
  intros Rec World run_cypher rel_df labels skey tkey rel_type rel_key
    chunk_size w Hbad run.
  assert (Hq : _make_rel_merge_query labels skey tkey rel_type (columns rel_df)
                 rel_key =
               if is_str_or_tuple labels && is_str_or_tuple skey &&
                  is_str_or_tuple tkey
               then Raise (IndexError "tuple index out of range")
               else Raise (Exception "Entry must of type string or tuple")).
  { destruct (is_str_or_tuple labels && is_str_or_tuple skey &&
              is_str_or_tuple tkey) eqn:Ht.
    - clear run.
      destruct labels as [l|[|l0 [|l1 lr]]|?|?|]; try discriminate Ht;
        destruct skey as [s|[|s0 [|s1 sr]]|?|?|]; try discriminate Ht;
        destruct tkey as [t|[|t0 [|t1 tr]]|?|?|]; try discriminate Ht;
        try discriminate Hbad; reflexivity.
    - now apply rel_query_bad_type. }
  unfold run.
  destruct (is_str_or_tuple labels && is_str_or_tuple skey && is_str_or_tuple tkey);
    rewrite (load_rels_synthesis_error run_cypher rel_df labels skey tkey
               rel_type rel_key chunk_size w _ Hq);
    repeat split.
Qed.

Lemma load_rels_synthesis_blocks_witness :
  let run :=
    load_rels (@len_executor nat)
      {| columns := ["a"; "b"]; to_dict_records := [1; 2]%nat |}
      (PStr "P") (PTuple ["a"]) (PStr "b") "KNOWS" None 1 tt in
  returned run = Raise (IndexError "tuple index out of range") /\
  trace run = [Printed (Banner "KNOWS" "relationships"); Printed (Staging 2)] /\
  world run = tt.
Proof.
  apply (load_rels_synthesis_blocks nat unit len_executor
           {| columns := ["a"; "b"]; to_dict_records := [1; 2]%nat |}
           (PStr "P") (PTuple ["a"]) (PStr "b") "KNOWS" None 1 tt).
  reflexivity.
Defined.

Lemma Forall_prefix {A : Type} (P : A -> Prop) (k : nat) (l : list A) :
  Forall P l -> Forall P (firstn k l).
Proof.
  intros H. revert k. induction H as [|x l Hx Hl IH]; intros k.
  - rewrite firstn_nil. constructor.
  - destruct k as [|k]; simpl; [constructor|].
    constructor; [exact Hx | apply IH].
Qed.

Lemma concat_firstn_skipn {A : Type} (k : nat) (cs : list (list A)) :
  List.concat cs = List.concat (firstn k cs) ++ List.concat (skipn k cs).
Proof.
  now rewrite <- concat_app, firstn_skipn.
Qed.

(** X11: the chunks [load_nodes] submits, put end to end, are the first
    records of the data frame, in their order and each once; when the
    run returns normally they are all of them. *)
Theorem load_nodes_submits_records_in_order :
  forall (Rec World : Type)
         (run_cypher : string -> option (list Rec) -> World -> result frame * World)
         (node_df : DataFrame Rec) (key label : string) (chunk_size : Z)
         (w : World),
  let run := load_nodes run_cypher node_df key label chunk_size w in
  exists rest,
    to_dict_records node_df =
      List.concat (submitted_chunks (trace run)) ++ rest /\
    (returned run = Ok tt -> rest = []).
Proof.
  intros Rec World run_cypher node_df key label chunk_size w run.
  destruct (load_nodes_observed run_cypher node_df key label chunk_size w)
    as (cs & counts & failure & w' & _ & Hcat & _ & _ & _ & Hall & Hret &
        _ & _ & Hsc & _).
  fold run in Hret, Hsc.
  exists (List.concat (skipn (reached counts failure) cs)).
  rewrite Hsc. split.
  - rewrite <- Hcat. apply concat_firstn_skipn.
  - intros Hok. rewrite Hok in Hret.
    destruct failure as [e|]; [discriminate Hret|].
    rewrite (Hall eq_refl), skipn_all. reflexivity.
Qed.

(** X12: every statement [load_nodes] submits carries between 1 and
    [max(1, chunk_size)] records, all under the one synthesized query;
    it submits at most the ceiling of [total / max(1, chunk_size)]
    statements, and exactly that many when it returns normally. *)
Theorem load_nodes_payload :
  forall (Rec World : Type)
         (run_cypher : string -> option (list Rec) -> World -> result frame * World)
         (node_df : DataFrame Rec) (key label : string) (chunk_size : Z)
         (w : World),
  let run := load_nodes run_cypher node_df key label chunk_size w in
  let calls := Z.of_nat (List.length (submitted_queries (trace run))) in
  let rounds :=
    ((Z.of_nat (List.length (to_dict_records node_df)) + Z.max 1 chunk_size - 1)
     / Z.max 1 chunk_size)%Z in
  Forall (fun recs => (1 <= Z.of_nat (List.length recs) <= Z.max 1 chunk_size)%Z)
    (submitted_chunks (trace run)) /\
  Forall (eq (_make_node_merge_query key label (columns node_df)))
    (submitted_queries (trace run)) /\
  List.length (submitted_chunks (trace run)) =
    List.length (submitted_queries (trace run)) /\
  (calls <= rounds)%Z /\
  (returned run = Ok tt -> calls = rounds).
Proof.
  intros Rec World run_cypher node_df key label chunk_size w run calls rounds.
  destruct (load_nodes_observed run_cypher node_df key label chunk_size w)
    as (cs & counts & failure & w' & Hcs & _ & Hbound & _ & Hle & Hall & Hret &
        _ & _ & Hsc & Hsq & _).
  fold run in Hret, Hsc, Hsq.
  pose proof (chunks_length _ _ _ Hcs) as Hlen. fold rounds in Hlen.
  unfold calls. rewrite Hsc, Hsq, repeat_length, length_firstn.
  split; [now apply Forall_prefix|].
  split; [apply Forall_forall; intros q Hq; symmetry; exact (repeat_spec _ _ _ Hq)|].
  split; [lia|]. split; [lia|].
  intros Hok. rewrite Hok in Hret.
  destruct failure as [e|]; [discriminate Hret|].
  rewrite (Hall eq_refl). exact Hlen.
Qed.

Lemma chunks_nil {A : Type} (n : Z) : chunks (@nil A) n = Ok [].
Proof.
  rewrite (chunks_of_count (@nil A) n 0); [reflexivity | simpl; lia].
Qed.

(** X13: a data frame without rows is no error.  [load_nodes] prints its
    header, submits nothing and returns, leaving the database as it was;
    [load_rels] does the same when its query can be synthesized and
    raises the synthesis error when it cannot, rows or no rows. *)
Theorem load_empty_input :
  forall (Rec World : Type)
         (run_cypher : string -> option (list Rec) -> World -> result frame * World)
         (cols : list string) (key label : string) (labels skey tkey : pyval)
         (rel_type : string) (rel_key : option string) (chunk_size : Z)
         (w : World),
  let df := {| columns := cols; to_dict_records := @nil Rec |} in
  load_nodes run_cypher df key label chunk_size w =
    Outcome (Ok tt) w
      [Printed (Banner label "nodes"); Printed (Staging 0);
       Printed (UsingQuery (_make_node_merge_query key label cols))] /\
  load_rels run_cypher df labels skey tkey rel_type rel_key chunk_size w =
    match _make_rel_merge_query labels skey tkey rel_type cols rel_key with
    | Ok query =>
        Outcome (Ok tt) w
          [Printed (Banner rel_type "relationships"); Printed (Staging 0);
           Printed (UsingQuery query)]
    | Raise e =>
        Outcome (Raise e) w
          [Printed (Banner rel_type "relationships"); Printed (Staging 0)]
    end.
Proof.
  intros Rec World run_cypher cols key label labels skey tkey rel_type rel_key
    chunk_size w df.
  split.
  - pose proof (load_nodes_run run_cypher df key label chunk_size w []
                  (chunks_nil chunk_size)) as H.
    exact H.
  - destruct (_make_rel_merge_query labels skey tkey rel_type cols rel_key)
      as [query|e] eqn:Hq.
    + pose proof (load_rels_run run_cypher df labels skey tkey rel_type rel_key
                    chunk_size w [] query (chunks_nil chunk_size) Hq) as H.
      exact H.
    + exact (load_rels_synthesis_error run_cypher df labels skey tkey rel_type
               rel_key chunk_size w e Hq).
Qed.

Section CountsBounded.

Context {Rec World : Type}.
Variable run_cypher :
  string -> option (list Rec) -> World -> result frame * World.
Hypothesis counts_bounded :
  forall (q : string) (recs : list Rec) (w0 : World) (c : Z),
  bind (fst (run_cypher q (Some recs) w0)) iloc00 = Ok c ->
  (0 <= c <= Z.of_nat (List.length recs))%Z.

Lemma execute_all_bounded (query : string) (cs : list (list Rec)) :
  forall w : World,
  Forall (fun c => (0 <= c)%Z) (fst (fst (execute_all run_cypher query cs w))) /\
  (sum_counts (fst (fst (execute_all run_cypher query cs w))) <=
   Z.of_nat (List.length (List.concat cs)))%Z.
Proof.
  induction cs as [|recs cs IH]; intros w; simpl.
  - split; [constructor | unfold sum_counts; simpl; lia].
  - pose proof (counts_bounded query recs w) as Hc.
    destruct (run_cypher query (Some recs) w) as [r w1]. simpl in Hc.
    rewrite length_app.
    destruct (bind r iloc00) as [c|e].
    + specialize (Hc c eq_refl). destruct (IH w1) as [IH1 IH2].
      destruct (execute_all run_cypher query cs w1) as [[counts failure] w2].
      simpl in *. split; [constructor; [lia | exact IH1]|].
      change (sum_counts (c :: counts)) with (c + sum_counts counts)%Z. lia.
    + simpl. split; [constructor | unfold sum_counts; simpl; lia].
Qed.

End CountsBounded.

Lemma running_sums_sorted (counts : list Z) :
  Forall (fun c => (0 <= c)%Z) counts ->
  forall acc : Z,
  StronglySorted Z.le (running_sums acc counts) /\
  Forall (fun t => (acc <= t <= acc + sum_counts counts)%Z)
    (running_sums acc counts).
Proof.
  induction 1 as [|c counts Hc Hcs IH]; intros acc; simpl.
  - split; constructor.
  - destruct (IH (acc + c)%Z) as [Hs Hb].
    assert (Hsum : (0 <= sum_counts counts)%Z).
    { clear -Hcs. induction Hcs as [|x l Hx Hl IHl]; unfold sum_counts in *;
        simpl; lia. }
    change (sum_counts (c :: counts)) with (c + sum_counts counts)%Z.
    split.
    + constructor; [exact Hs|].
      eapply Forall_impl; [|exact Hb]. simpl. intros t Ht. lia.
    + constructor; [lia|].
      eapply Forall_impl; [|exact Hb]. simpl. intros t Ht. lia.
Qed.

(** Running sums that stay within 64 bits are reported as they are. *)
Lemma running_totals_exact (counts : list Z) (acc : Z) :
  Forall (fun t => (- 2 ^ 63 <= t < 2 ^ 63)%Z) (running_sums acc counts) ->
  running_totals acc counts = running_sums acc counts.
Proof.
  intros Hrange. rewrite (running_totals_wrap counts acc acc eq_refl).
  rewrite <- (map_id (running_sums acc counts)) at 2.
  apply map_ext_in. intros t Ht. apply wrap64_in_range.
  exact (proj1 (Forall_forall _ _) Hrange t Ht).
Qed.

(** X14: when every call returns a count between 0 and the number of
    records it was given, and the data frame has fewer than [2^63]
    records, the totals [load_nodes] reports never decrease, each lies
    between 0 and the total reported last, which is at most the number
    of records, and every report carries that number as its second
    number. *)
Theorem load_nodes_progress_monotone :
  forall (Rec World : Type)
         (run_cypher : string -> option (list Rec) -> World -> result frame * World)
         (node_df : DataFrame Rec) (key label : string) (chunk_size : Z)
         (w : World),
  (forall (q : string) (recs : list Rec) (w0 : World) (c : Z),
     bind (fst (run_cypher q (Some recs) w0)) iloc00 = Ok c ->
     (0 <= c <= Z.of_nat (List.length recs))%Z) ->
  (Z.of_nat (List.length (to_dict_records node_df)) < 2 ^ 63)%Z ->
  let run := load_nodes run_cypher node_df key label chunk_size w in
  StronglySorted Z.le (map fst (progress (trace run))) /\
  Forall (fun t => (0 <= t <= final_count (trace run))%Z)
    (map fst (progress (trace run))) /\
  (final_count (trace run) <= Z.of_nat (List.length (to_dict_records node_df)))%Z /\
  Forall (fun p => snd p = List.length (to_dict_records node_df))
    (progress (trace run)).
Proof.
  intros Rec World run_cypher node_df key label chunk_size w Hb Hsmall run.
  destruct (load_nodes_observed run_cypher node_df key label chunk_size w)
    as (cs & counts & failure & w' & _ & Hcat & _ & Hex & _ & _ & _ & _ & _ & _ &
        _ & Hpr & Hfin).
  fold run in Hpr, Hfin.
  destruct (execute_all_bounded run_cypher Hb
              (_make_node_merge_query key label (columns node_df)) cs w)
    as [Hnn Hsum].
  rewrite Hex in Hnn, Hsum. simpl in Hnn, Hsum. rewrite Hcat in Hsum.
  destruct (running_sums_sorted counts Hnn 0%Z) as [Hs Hbd].
  assert (Hexact : running_totals 0 counts = running_sums 0 counts).
  { apply running_totals_exact. eapply Forall_impl; [|exact Hbd].
    simpl. intros t Ht. lia. }
  assert (Hnonneg : (0 <= sum_counts counts)%Z).
  { clear -Hnn. induction Hnn as [|x l Hx Hl IHl]; unfold sum_counts in *;
      simpl; lia. }
  rewrite Hpr, Hfin, map_map. simpl. rewrite map_id, Hexact.
  rewrite wrap64_in_range by lia.
  split; [exact Hs|]. split; [exact Hbd|]. split; [exact Hsum|].
  apply Forall_forall. intros p Hp. apply in_map_iff in Hp.
  destruct Hp as (t & <- & _). reflexivity.
Qed.

Lemma load_nodes_progress_monotone_witness :
  let run :=
    load_nodes len_executor
      {| columns := ["id"]; to_dict_records := [1; 2; 3; 4; 5]%nat |}
      "id" "Person" 2 tt in
  StronglySorted Z.le (map fst (progress (trace run))) /\
  Forall (fun t => (0 <= t <= final_count (trace run))%Z)
    (map fst (progress (trace run))) /\
  (final_count (trace run) <= 5)%Z /\
  Forall (fun p => snd p = 5%nat) (progress (trace run)).
Proof.
  apply (load_nodes_progress_monotone nat unit len_executor
           {| columns := ["id"]; to_dict_records := [1; 2; 3; 4; 5]%nat |}
           "id" "Person" 2 tt).
  - intros q recs w0 c H. simpl in H. injection H as <-. lia.
  - simpl. lia.
Defined.

(** X15: when the database answers the first statement with a data
    frame without rows, [load_nodes] raises the [IndexError] of
    [res.iloc[0, 0]]: the first chunk has been submitted by then, only
    that chunk, and no total is reported. *)
Theorem load_nodes_empty_frame :
  forall (Rec World : Type)
         (run_cypher : string -> option (list Rec) -> World -> result frame * World)
         (node_df : DataFrame Rec) (key label : string) (chunk_size : Z)
         (w : World),
  to_dict_records node_df <> [] ->
  (forall (q : string) (recs : list Rec), fst (run_cypher q (Some recs) w) = Ok []) ->
  let run := load_nodes run_cypher node_df key label chunk_size w in
  returned run = Raise (IndexError "index 0 is out of bounds for axis 0 with size 0") /\
  List.length (submitted_chunks (trace run)) = 1%nat /\
  progress (trace run) = [].
Proof.
  intros Rec World run_cypher node_df key label chunk_size w Hne Hempty run.
  destruct (load_nodes_observed run_cypher node_df key label chunk_size w)
    as (cs & counts & failure & w' & _ & Hcat & _ & Hex & _ & _ & Hret & _ & _ &
        Hsc & _ & Hpr & _).
  fold run in Hret, Hsc, Hpr.
  destruct cs as [|recs cs]; [simpl in Hcat; congruence|].
  simpl in Hex.
  pose proof (Hempty (_make_node_merge_query key label (columns node_df)) recs) as He.
  destruct (run_cypher _ (Some recs) w) as [r w1]. simpl in He. subst r.
  simpl in Hex. injection Hex as <- <- <-.
  rewrite Hret, Hsc, Hpr. repeat split.
Qed.

Lemma load_nodes_empty_frame_witness :
  let run :=
    load_nodes empty_frame_executor
      {| columns := ["id"]; to_dict_records := [1; 2; 3]%nat |}
      "id" "Person" 2 tt in
  returned run = Raise (IndexError "index 0 is out of bounds for axis 0 with size 0") /\
  List.length (submitted_chunks (trace run)) = 1%nat /\
  progress (trace run) = [].
Proof.
  apply (load_nodes_empty_frame nat unit empty_frame_executor
           {| columns := ["id"]; to_dict_records := [1; 2; 3]%nat |}
           "id" "Person" 2 tt).
  - discriminate.
  - reflexivity.
Defined.

(** X16: each maintenance delete makes one database call, without
    parameters.  It looks at nothing the call returns: it returns
    normally whenever the call does, raises what the call raises, and
    leaves the database as the call left it. *)
Theorem delete_outcome :
  forall (Rec World : Type)
         (run_cypher : string -> option (list Rec) -> World -> result frame * World)
         (rel_type node_label : string) (batch_size : Z)
         (src_node_label : option string) (w : World),
  (exists q,
     let run :=
       delete_relationships run_cypher rel_type batch_size src_node_label w in
     trace run = [Submitted q None] /\
     returned run = bind (fst (run_cypher q None w)) (fun _ => Ok tt) /\
     world run = snd (run_cypher q None w)) /\
  (exists q,
     let run := delete_nodes run_cypher node_label batch_size w in
     trace run = [Submitted q None] /\
     returned run = bind (fst (run_cypher q None w)) (fun _ => Ok tt) /\
     world run = snd (run_cypher q None w)).
Proof.
  intros Rec World run_cypher rel_type node_label batch_size src_node_label w.
  assert (Hcall : forall q,
            let run :=
              pbind (gds_run_cypher run_cypher q None)
                (fun _ : frame => @ret Rec World unit tt) w in
            trace run = [Submitted q None] /\
            returned run = bind (fst (run_cypher q None w)) (fun _ => Ok tt) /\
            world run = snd (run_cypher q None w)).
  { intros q run. unfold run, pbind, gds_run_cypher, ret.
    destruct (run_cypher q None w) as [[res|e] w1]; repeat split. }
  split; eexists; apply Hcall.
Qed.

(** ** The graph catalog *)

Section CatalogRuns.

Context {World Graph : Type}.
Variable graph_get : string -> World -> result Graph * World.
Variable graph_drop : Graph -> World -> result unit * World.

(** The loop over a listing [a ++ b] is the loop over [a], followed, when
    that returned normally, by the loop over [b] from the world it
    left. *)
Lemma drop_graphs_app (a b : list string) :
  forall w : World,
  drop_graphs graph_get graph_drop (a ++ b) w =
  let '(r, w1, calls1) := drop_graphs graph_get graph_drop a w in
  match r with
  | Ok _ =>
      let '(r2, w2, calls2) := drop_graphs graph_get graph_drop b w1 in
      (r2, w2, calls1 ++ calls2)
  | Raise e => (Raise e, w1, calls1)
  end.
Proof.
  induction a as [|g_name a IH]; intros w.
  - simpl. destruct (drop_graphs graph_get graph_drop b w) as [[r2 w2] calls2].
    reflexivity.
  - cbn [app drop_graphs].
    destruct (graph_get g_name w) as [[g|e] w1]; [|reflexivity].
    destruct (graph_drop g w1) as [[[]|e] w2]; [|reflexivity].
    rewrite IH.
    destruct (drop_graphs graph_get graph_drop a w2) as [[[[]|e] w3] calls1].
    + destruct (drop_graphs graph_get graph_drop b w3) as [[r2 w4] calls2].
      reflexivity.
    + reflexivity.
Qed.

End CatalogRuns.

(** X17: [clear_all_gds_graphs] lists the catalog first, once, and raises
    what the listing raises.  It handles one listed name by getting its
    graph and dropping that very graph, raising what either call raises
    and dropping nothing when the get raised.  It handles a listing
    [a ++ b] by handling [a] and then, only when that returned normally,
    [b] from the world [a] left: the first call that raises ends the
    run, with every later name untouched. *)
Theorem clear_all_gds_graphs_calls :
  forall (World Graph : Type)
         (graph_list : World -> result (list string) * World)
         (graph_get : string -> World -> result Graph * World)
         (graph_drop : Graph -> World -> result unit * World),
  let clear := clear_all_gds_graphs graph_list graph_get graph_drop in
  (forall w e w0,
     graph_list w = (Raise e, w0) -> clear w = (Raise e, w0, [ListGraphs])) /\
  (forall w w0, graph_list w = (Ok [], w0) -> clear w = (Ok tt, w0, [ListGraphs])) /\
  (forall w g_name w0 e w1,
     graph_list w = (Ok [g_name], w0) ->
     graph_get g_name w0 = (Raise e, w1) ->
     clear w = (Raise e, w1, [ListGraphs; GetGraph g_name])) /\
  (forall w g_name w0 g w1,
     graph_list w = (Ok [g_name], w0) ->
     graph_get g_name w0 = (Ok g, w1) ->
     clear w =
     (bind (fst (graph_drop g w1)) (fun _ => Ok tt), snd (graph_drop g w1),
      [ListGraphs; GetGraph g_name; DropGraph g])) /\
  (forall w a b w0,
     graph_list w = (Ok (a ++ b), w0) ->
     clear w =
     let '(r, w1, calls1) := drop_graphs graph_get graph_drop a w0 in
     match r with
     | Ok _ =>
         let '(r2, w2, calls2) := drop_graphs graph_get graph_drop b w1 in
         (r2, w2, ListGraphs :: calls1 ++ calls2)
     | Raise e => (Raise e, w1, ListGraphs :: calls1)
     end).
Proof.
  intros World Graph graph_list graph_get graph_drop clear.
  unfold clear, clear_all_gds_graphs.
  split; [intros w e w0 ->; reflexivity|].
  split; [intros w w0 ->; reflexivity|].
  split; [intros w g_name w0 e w1 -> Hget; simpl; rewrite Hget; reflexivity|].
  split.
  { intros w g_name w0 g w1 -> Hget. simpl. rewrite Hget.
    destruct (graph_drop g w1) as [[[]|e] w2]; reflexivity. }
  intros w a b w0 ->. rewrite drop_graphs_app.
  destruct (drop_graphs graph_get graph_drop a w0) as [[[[]|e] w1] calls1].
  - destruct (drop_graphs graph_get graph_drop b w1) as [[r2 w2] calls2].
    reflexivity.
  - reflexivity.
Qed.

Section CatalogOfNames.

Context {World Graph : Type}.
Variable graph_list : World -> result (list string) * World.
Variable graph_get : string -> World -> result Graph * World.
Variable graph_drop : Graph -> World -> result unit * World.

(** The names in the catalog of a world, and the name of a graph
    object. *)
Variable catalog : World -> list string.
Variable name_of : Graph -> string.

Hypothesis list_gives_catalog :
  forall w, graph_list w = (Ok (catalog w), w).
Hypothesis get_finds_listed :
  forall g_name w,
  In g_name (catalog w) ->
  exists g, graph_get g_name w = (Ok g, w) /\ name_of g = g_name.
Hypothesis drop_removes :
  forall g w,
  In (name_of g) (catalog w) ->
  exists w',
    graph_drop g w = (Ok tt, w') /\
    catalog w' = filter (fun x => negb (String.eqb x (name_of g))) (catalog w).

Lemma filter_not_in (g_name : string) (l : list string) :
  ~ In g_name l -> filter (fun x => negb (String.eqb x g_name)) l = l.
Proof.
  induction l as [|x l IH]; intros Hnot; [reflexivity|]. simpl.
  destruct (String.eqb_spec x g_name) as [->|Hne]; simpl.
  - exfalso. apply Hnot. now left.
  - rewrite IH; [reflexivity|]. intros Hin. apply Hnot. now right.
Qed.

Lemma drop_graphs_empties (g_names : list string) :
  NoDup g_names ->
  forall w : World,
  catalog w = g_names ->
  let '(r, w', calls) := drop_graphs graph_get graph_drop g_names w in
  r = Ok tt /\ catalog w' = [] /\ got_names calls = g_names /\
  map name_of (dropped_graphs calls) = g_names.
Proof.
  induction 1 as [|g_name g_names Hnot Hnd IH]; intros w Hcat; simpl.
  - repeat split. exact Hcat.
  - destruct (get_finds_listed g_name w) as (g & Hget & Hname);
      [rewrite Hcat; now left|].
    rewrite Hget.
    destruct (drop_removes g w) as (w2 & Hdrop & Hcat2);
      [rewrite Hname, Hcat; now left|].
    rewrite Hdrop.
    assert (Hrest : catalog w2 = g_names).
    { rewrite Hcat2, Hname, Hcat. simpl. rewrite String.eqb_refl. simpl.
      now apply filter_not_in. }
    specialize (IH w2 Hrest).
    destruct (drop_graphs graph_get graph_drop g_names w2) as [[r w3] calls].
    destruct IH as (Hr & Hc & Hg & Hd). simpl.
    rewrite Hg, Hd, Hname. repeat split; assumption.
Qed.

(** X18: over a catalog that lists its graphs by name, each name once,
    finds a listed graph and forgets a graph it drops,
    [clear_all_gds_graphs] returns normally and leaves the catalog
    empty, having asked for and dropped each listed graph once, in the
    order of the listing. *)
Theorem clear_all_gds_graphs_empties :
  forall w : World,
  NoDup (catalog w) ->
  let '(r, w', calls) := clear_all_gds_graphs graph_list graph_get graph_drop w in
  r = Ok tt /\
  catalog w' = [] /\
  got_names calls = catalog w /\
  map name_of (dropped_graphs calls) = catalog w.
Proof.
  intros w Hnd. unfold clear_all_gds_graphs.
  rewrite list_gives_catalog.
  pose proof (drop_graphs_empties (catalog w) Hnd w eq_refl) as H.
  destruct (drop_graphs graph_get graph_drop (catalog w) w) as [[r w1] calls].
  simpl. exact H.
Qed.

End CatalogOfNames.

Lemma list_catalog_drop_spec (g : string) (w : list string) :
  In g w ->
  list_catalog_drop g w =
  (Ok tt, filter (fun x => negb (String.eqb x g)) w).
Proof.
  intros Hin. unfold list_catalog_drop.
  replace (existsb (String.eqb g) w) with true; [reflexivity|].
  symmetry. apply existsb_exists. exists g. split; [exact Hin|].
  apply String.eqb_refl.
Qed.

Lemma list_catalog_get_spec (g_name : string) (w : list string) :
  In g_name w -> list_catalog_get g_name w = (Ok g_name, w).
Proof.
  intros Hin. unfold list_catalog_get.
  replace (existsb (String.eqb g_name) w) with true; [reflexivity|].
  symmetry. apply existsb_exists. exists g_name. split; [exact Hin|].
  apply String.eqb_refl.
Qed.

Lemma clear_all_gds_graphs_empties_witness :
  let '(r, w', calls) :=
    clear_all_gds_graphs list_catalog_list list_catalog_get list_catalog_drop
      ["people"; "cities"] in
  r = Ok tt /\
  w' = [] /\
  got_names calls = ["people"; "cities"] /\
  map (fun g : string => g) (dropped_graphs calls) = ["people"; "cities"].
Proof.
  apply (clear_all_gds_graphs_empties list_catalog_list list_catalog_get
           list_catalog_drop (fun w : list string => w) (fun g : string => g)).
  - reflexivity.
  - intros g_name w Hin. exists g_name.
    split; [now apply list_catalog_get_spec | reflexivity].
  - intros g w Hin. eexists.
    split; [now apply list_catalog_drop_spec | reflexivity].
  - repeat constructor; simpl; intuition discriminate.
Defined.

(** ** Progress under a per-record count *)

Lemma sum_counts_concat {A : Type} (f : A -> Z) (cs : list (list A)) :
  sum_counts (map (fun ch => sum_counts (map f ch)) cs) =
  sum_counts (map f (List.concat cs)).
Proof.
  induction cs as [|ch cs IH]; [reflexivity|].
  simpl. rewrite map_app, sum_counts_app, <- IH. reflexivity.
Qed.

Lemma running_sums_snoc (l : list Z) (x : Z) :
  forall acc : Z,
  running_sums acc (l ++ [x]) =
  running_sums acc l ++ [(acc + sum_counts l + x)%Z].
Proof.
  induction l as [|y l IH]; intros acc; simpl.
  - f_equal. unfold sum_counts. simpl. lia.
  - rewrite IH. do 3 f_equal. unfold sum_counts. simpl. lia.
Qed.

Lemma running_sums_chunk_at {A : Type} (f : A -> Z) (m : nat) (xs : list A)
    (c : nat) :
  running_sums 0
    (map (fun ch => sum_counts (map f ch)) (map (chunk_at m xs) (seq 0 c))) =
  map (fun k => sum_counts (map f (firstn (S k * m) xs))) (seq 0 c).
Proof.
  induction c as [|c IH]; [reflexivity|].
  rewrite seq_S, !map_app. cbn [map Nat.add].
  rewrite running_sums_snoc, IH. f_equal. f_equal.
  rewrite sum_counts_concat, concat_chunk_at.
  replace (S c * m)%nat with (c * m + m)%nat by lia.
  rewrite firstn_plus, map_app, sum_counts_app. unfold chunk_at. lia.
Qed.

Section PerRecordCount.

Context {Rec World : Type}.
Variable run_cypher :
  string -> option (list Rec) -> World -> result frame * World.
Variable per_record : Rec -> Z.
Hypothesis additive :
  forall (q : string) (recs : list Rec) (w : World),
  bind (fst (run_cypher q (Some recs) w)) iloc00 =
  Ok (sum_counts (map per_record recs)).

Lemma execute_all_per_record (query : string) (cs : list (list Rec)) :
  forall w : World,
  fst (execute_all run_cypher query cs w) =
  (map (fun ch => sum_counts (map per_record ch)) cs, None).
Proof.
  induction cs as [|recs cs IH]; intros w; simpl; [reflexivity|].
  pose proof (additive query recs w) as Hadd.
  destruct (run_cypher query (Some recs) w) as [r w1]. simpl in Hadd.
  rewrite Hadd. specialize (IH w1).
  destruct (execute_all run_cypher query cs w1) as [[counts failure] w2].
  simpl in *. injection IH as -> ->. reflexivity.
Qed.

End PerRecordCount.

Lemma sum_prefix_bound {A : Type} (f : A -> Z) (xs : list A) :
  (forall x, 0 <= f x)%Z ->
  forall n : nat,
  (0 <= sum_counts (map f (firstn n xs)) <= sum_counts (map f xs))%Z.
Proof.
  intros Hf. induction xs as [|x xs IH]; intros n.
  - rewrite firstn_nil. unfold sum_counts. simpl. lia.
  - destruct n as [|n].
    + specialize (IH 0%nat). specialize (Hf x).
      unfold sum_counts in *. simpl in *. lia.
    + specialize (IH n). specialize (Hf x).
      unfold sum_counts in *. simpl in *. lia.
Qed.

(** X19: when every call answers with the sum of a per-record count over
    the records it was given (their number, say), [load_nodes] returns
    normally, and the total it reports after chunk [k] is that count
    summed over the first [(k + 1) * max(1, chunk_size)] records, so
    over all of them at the end, as a 64-bit integer: wrapped into
    [-2^63 .. 2^63 - 1], and the sum itself when no per-record count is
    negative and the sum over all the records is below [2^63]. *)
Theorem load_nodes_progress_per_record :
  forall (Rec World : Type)
         (run_cypher : string -> option (list Rec) -> World -> result frame * World)
         (per_record : Rec -> Z) (node_df : DataFrame Rec) (key label : string)
         (chunk_size : Z) (w : World),
  (forall (q : string) (recs : list Rec) (w0 : World),
     bind (fst (run_cypher q (Some recs) w0)) iloc00 =
     Ok (sum_counts (map per_record recs))) ->
  let run := load_nodes run_cypher node_df key label chunk_size w in
  let records := to_dict_records node_df in
  let count_of_first (k : nat) :=
    sum_counts
      (map per_record (firstn (S k * Z.to_nat (Z.max 1 chunk_size)) records)) in
  let rounds := List.length (submitted_chunks (trace run)) in
  returned run = Ok tt /\
  List.concat (submitted_chunks (trace run)) = records /\
  map fst (progress (trace run)) =
    map (fun k => wrap64 (count_of_first k)) (seq 0 rounds) /\
  final_count (trace run) = wrap64 (sum_counts (map per_record records)) /\
  ((forall r, 0 <= per_record r)%Z ->
   (sum_counts (map per_record records) < 2 ^ 63)%Z ->
   map fst (progress (trace run)) = map count_of_first (seq 0 rounds) /\
   final_count (trace run) = sum_counts (map per_record records)).
Proof.
  intros Rec World run_cypher per_record node_df key label chunk_size w Hadd
    run records count_of_first rounds.
  destruct (load_nodes_observed run_cypher node_df key label chunk_size w)
    as (cs & counts & failure & w' & Hcs & Hcat & _ & Hex & _ & Hall & Hret &
        _ & _ & Hsc & _ & Hpr & Hfin).
  fold run in Hret, Hsc, Hpr, Hfin. fold records in Hcs, Hcat, Hpr.
  pose proof (execute_all_per_record run_cypher per_record Hadd
                (_make_node_merge_query key label (columns node_df)) cs w) as Hc.
  rewrite Hex in Hc. simpl in Hc. injection Hc as -> ->.
  rewrite (Hall eq_refl), firstn_all in Hsc.
  destruct (chunks_chunk_at records chunk_size) as (c & Heq & _).
  rewrite Hcs in Heq. injection Heq as Heq.
  assert (Hprog : map fst (progress (trace run)) =
                  map (fun k => wrap64 (count_of_first k)) (seq 0 rounds)).
  { rewrite Hpr, map_map. simpl. rewrite map_id.
    rewrite (running_totals_wrap _ 0 0 eq_refl).
    unfold rounds. rewrite Hsc, Heq, length_map, length_seq.
    rewrite running_sums_chunk_at, map_map. reflexivity. }
  assert (Hfinal : final_count (trace run) =
                   wrap64 (sum_counts (map per_record records))).
  { rewrite Hfin, sum_counts_concat, Hcat. reflexivity. }
  split; [exact Hret|]. split; [rewrite Hsc; exact Hcat|].
  split; [exact Hprog|]. split; [exact Hfinal|].
  intros Hnn Hsmall.
  pose proof (sum_prefix_bound per_record records Hnn) as Hbound.
  split.
  - rewrite Hprog. apply map_ext. intros k. apply wrap64_in_range.
    specialize (Hbound (S k * Z.to_nat (Z.max 1 chunk_size))%nat).
    unfold count_of_first. lia.
  - rewrite Hfinal. apply wrap64_in_range.
    specialize (Hbound 0%nat). lia.
Qed.

Lemma load_nodes_progress_per_record_witness :
  let run :=
    load_nodes len_executor
      {| columns := ["id"]; to_dict_records := [1; 2; 3; 4; 5]%nat |}
      "id" "Person" 2 tt in
  returned run = Ok tt /\
  map fst (progress (trace run)) = [2; 4; 5]%Z /\
  final_count (trace run) = 5%Z.
Proof.
  destruct (load_nodes_progress_per_record nat unit len_executor (fun _ => 1%Z)
              {| columns := ["id"]; to_dict_records := [1; 2; 3; 4; 5]%nat |}
              "id" "Person" 2 tt) as (Hret & _ & Hpr & Hfin & _).
  - intros q recs w0. simpl. f_equal.
    induction recs as [|r recs IH]; [reflexivity|].
    change (sum_counts (map (fun _ : nat => 1%Z) (r :: recs)))
      with (1 + sum_counts (map (fun _ : nat => 1%Z) recs))%Z.
    rewrite <- IH. simpl List.length. lia.
  - split; [exact Hret|]. split; [exact Hpr | exact Hfin].
Defined.
